(** * The streaming chat interface and the headless printer of grok-cli

    A shallow embedding of two pieces of the repository:

    - the [ChatInterfaceWithAgent] component (src/ui/components/chat-interface.tsx):
      its React state, the closure variables of [processInitialMessage], the
      throttled [flushUpdates], the chunk loop, the confirmation handlers,
      and the effects for the session log and the processing clock;
    - the message conversion of [processPromptHeadless] and the action of
      the main command (src/index.ts).

    Modelling conventions.
    - A JavaScript string is the sequence of its UTF-16 code units, so that
      [length], [substring] and [+] are [length], [take] and [++].
    - A React setter applies its update at once; [observed] keeps every value
      [chatHistory] has taken, so that each render is an observation point.
    - Every handler runs to completion on the event loop; the event that
      starts it carries the clock reading ([Date.now()], [new Date()]) that
      the handler sees.  The handler of a chunk reads the clock in up to
      three places; [onChunkAt] has a reading for each, and [onChunk] is
      the case where the three agree.
    - The effect that starts [processInitialMessage] depends on
      [initialMessage] and [agent] only, so the functions it creates keep the
      bindings of the render that started it: inside [flushUpdates],
      [confirmationOptions] is the value captured then, which later
      [setConfirmationOptions] calls do not change. *)

From Stdlib Require Import ZArith Lia.
From stdpp Require Import base option list strings.

Local Open Scope Z_scope.

(** ** JavaScript values *)

Definition jsstring := list N.

(** An ASCII literal as a JavaScript string. *)
Definition lit (s : string) : jsstring :=
  Ascii.N_of_ascii <$> String.list_ascii_of_string s.

(** Truthiness of a string-or-undefined value. *)
Definition truthy (v : option jsstring) : bool :=
  match v with
  | Some (_ :: _) => true
  | _ => false
  end.

(** [a || b] on string-or-undefined values. *)
Definition js_or (a b : option jsstring) : option jsstring :=
  if truthy a then a else b.

(** A string-or-undefined value inside a template literal. *)
Definition interpolate (v : option jsstring) : jsstring :=
  match v with
  | Some s => s
  | None => lit "undefined"
  end.

(** [s.substring(0, n)] *)
Definition substring0 (n : nat) (s : jsstring) : jsstring := take n s.

(** [Array.prototype.findIndex]: the first index whose element satisfies
    [p], and -1 when there is none. *)
Fixpoint findIndex {A} (p : A -> bool) (l : list A) : Z :=
  match l with
  | [] => -1
  | x :: r =>
      if p x then 0
      else let i := findIndex p r in if i <? 0 then -1 else i + 1
  end.

(** [Array.prototype.find] *)
Fixpoint find {A} (p : A -> bool) (l : list A) : option A :=
  match l with
  | [] => None
  | x :: r => if p x then Some x else find p r
  end.

Definition jsstring_eqb (a b : jsstring) : bool := bool_decide (a = b).

(** ** Data of the agent interface, as the component uses it *)

Module GrokToolCall.
(** The called function: its name and its JSON-encoded arguments. *)
Record fn := mkfn {
  name : jsstring;
  arguments : jsstring
}.

Record t := mk {
  id : jsstring;
  function : fn
}.
End GrokToolCall.

Module ToolResult.
Record t := mk {
  success : bool;
  output : option jsstring;
  error : option jsstring
}.
End ToolResult.

Inductive EntryType := ty_user | ty_assistant | ty_tool_result | ty_tool_call.

Module ChatEntry.
Record t := mk {
  type : EntryType;
  content : jsstring;
  timestamp : Z;
  isStreaming : option bool;
  toolCalls : option (list GrokToolCall.t);
  toolCall : option GrokToolCall.t;
  toolResult : option ToolResult.t
}.

(** [entry.isStreaming] in a condition. *)
Definition streaming (e : t) : bool :=
  match isStreaming e with
  | Some b => b
  | None => false
  end.

(** [{...e, content: c}] *)
Definition with_content (c : jsstring) (e : t) : t :=
  mk (type e) c (timestamp e) (isStreaming e) (toolCalls e) (toolCall e)
     (toolResult e).

(** [{...e, isStreaming: false}] *)
Definition stop_streaming (e : t) : t :=
  mk (type e) (content e) (timestamp e) (Some false) (toolCalls e)
     (toolCall e) (toolResult e).

(** [{...e, isStreaming: false, toolCalls: tcs}] *)
Definition complete_with (tcs : list GrokToolCall.t) (e : t) : t :=
  mk (type e) (content e) (timestamp e) (Some false) (Some tcs)
     (toolCall e) (toolResult e).

(** [{...e, type: "tool_result", content: c, toolResult: r}] *)
Definition as_result (c : jsstring) (r : ToolResult.t) (e : t) : t :=
  mk ty_tool_result c (timestamp e) (isStreaming e) (toolCalls e)
     (toolCall e) (Some r).
End ChatEntry.

Inductive ChunkType :=
  ch_content | ch_completion | ch_token_count | ch_tool_calls
| ch_tool_result | ch_done.

Module Chunk.
Record t := mk {
  type : ChunkType;
  content : option jsstring;
  tokenCount : option Z;
  toolCalls : option (list GrokToolCall.t);
  toolCall : option GrokToolCall.t;
  toolResult : option ToolResult.t
}.
End Chunk.

(** What the async iteration can throw: an [Error] with its message, or any
    other value, given by its [String(...)] conversion. *)
Inductive Thrown :=
| ErrorObject (message : jsstring)
| OtherValue (asString : jsstring).

Record ConfirmationOptions := {
  operation : jsstring;
  filename : jsstring;
  showVSCodeOpen : option bool;
  previewContent : option jsstring
}.

(** Calls made on the confirmation service. *)
Inductive ServiceCall :=
| confirmOperation (confirmed : bool) (dontAskAgain : option bool)
| rejectOperation (feedback : option jsstring).

(** The members of the parsed tool-call arguments that the descriptions
    read; each is a string or undefined. *)
Record ToolArgs := {
  path : option jsstring;
  file_path : option jsstring;
  command : option jsstring;
  query : option jsstring
}.

(** ** State *)

(** The React state and refs of [ChatInterfaceWithAgent].  Two fields are
    added for reasoning: [observed] lists every value given to
    [chatHistory], newest first, and [serviceCalls] the calls made on the
    confirmation service. *)
Record UI := mkUI {
  chatHistory : list ChatEntry.t;
  isProcessing : bool;
  processingTime : Z;
  tokenCount : Z;
  isStreaming : bool;
  confirmationOptions : option ConfirmationOptions;
  processingStartTime : Z;
  observed : list (list ChatEntry.t);
  serviceCalls : list ServiceCall
}.

(** The variables that the closures of one [processInitialMessage] call
    see: its own [let] variables, and the [confirmationOptions] binding of
    the render in which the effect ran. *)
Record Session := mkSession {
  streamingEntry : option ChatEntry.t;
  accumulatedContent : jsstring;
  lastTokenCount : Z;
  pendingToolCalls : option (list GrokToolCall.t);
  pendingToolResults : list (GrokToolCall.t * ToolResult.t);
  lastUpdateTime : Z;
  capturedConfirmationOptions : option ConfirmationOptions
}.

Definition setChatHistory (f : list ChatEntry.t -> list ChatEntry.t) (u : UI)
  : UI :=
  let h := f (chatHistory u) in
  mkUI h (isProcessing u) (processingTime u) (tokenCount u) (isStreaming u)
       (confirmationOptions u) (processingStartTime u) (h :: observed u)
       (serviceCalls u).

Definition setIsProcessing (b : bool) (u : UI) : UI :=
  mkUI (chatHistory u) b (processingTime u) (tokenCount u) (isStreaming u)
       (confirmationOptions u) (processingStartTime u) (observed u)
       (serviceCalls u).

Definition setProcessingTime (n : Z) (u : UI) : UI :=
  mkUI (chatHistory u) (isProcessing u) n (tokenCount u) (isStreaming u)
       (confirmationOptions u) (processingStartTime u) (observed u)
       (serviceCalls u).

Definition setTokenCount (n : Z) (u : UI) : UI :=
  mkUI (chatHistory u) (isProcessing u) (processingTime u) n (isStreaming u)
       (confirmationOptions u) (processingStartTime u) (observed u)
       (serviceCalls u).

Definition setIsStreaming (b : bool) (u : UI) : UI :=
  mkUI (chatHistory u) (isProcessing u) (processingTime u) (tokenCount u) b
       (confirmationOptions u) (processingStartTime u) (observed u)
       (serviceCalls u).

Definition setConfirmationOptions (o : option ConfirmationOptions) (u : UI)
  : UI :=
  mkUI (chatHistory u) (isProcessing u) (processingTime u) (tokenCount u)
       (isStreaming u) o (processingStartTime u) (observed u)
       (serviceCalls u).

(** [processingStartTime.current = n] *)
Definition setProcessingStartTime (n : Z) (u : UI) : UI :=
  mkUI (chatHistory u) (isProcessing u) (processingTime u) (tokenCount u)
       (isStreaming u) (confirmationOptions u) n (observed u)
       (serviceCalls u).

Definition callService (c : ServiceCall) (u : UI) : UI :=
  mkUI (chatHistory u) (isProcessing u) (processingTime u) (tokenCount u)
       (isStreaming u) (confirmationOptions u) (processingStartTime u)
       (observed u) (serviceCalls u ++ [c]).

(** ** The stream coalescer *)

Section Coalescer.

(** [JSON.parse] on the arguments of a tool call, for arguments that follow
    the schema of the tools: an object whose members [path], [file_path],
    [command] and [query], where present, are strings.  [None] when
    [JSON.parse] throws.  Arguments with a member of another type are
    outside the model: there the member reads of the bash case throw and
    those of the other cases do not, so the outcome depends on the tool
    name as well. *)
Variable JSON_parse : jsstring -> option ToolArgs.

(** The description of a tool call (the body of the [forEach] callback). *)
Definition description (toolCall : GrokToolCall.t) : jsstring :=
  let name := GrokToolCall.name (GrokToolCall.function toolCall) in
  match JSON_parse (GrokToolCall.arguments (GrokToolCall.function toolCall)) with
  | Some args =>
      if jsstring_eqb name (lit "create_file") then
        lit "Creating file: " ++ interpolate (js_or (path args) (file_path args))
      else if jsstring_eqb name (lit "str_replace_editor") then
        lit "Editing file: " ++ interpolate (js_or (path args) (file_path args))
      else if jsstring_eqb name (lit "view_file") then
        lit "Reading file: " ++ interpolate (js_or (path args) (file_path args))
      else if jsstring_eqb name (lit "bash") then
        lit "Running command: "
        ++ interpolate (substring0 60 <$> command args)
        ++ (match command args with
            | Some c => if (60 <? Z.of_nat (length c)) then lit "..." else []
            | None => []
            end)
      else if jsstring_eqb name (lit "search") then
        lit "Searching for: " ++ interpolate (query args)
      else lit "Using " ++ name
  | None => lit "Using " ++ name
  end.

Definition toolCallEntry (now : Z) (toolCall : GrokToolCall.t) : ChatEntry.t :=
  ChatEntry.mk ty_tool_call (description toolCall) now None None
               (Some toolCall) None.

(** The message shown for a tool result ([resultContent]). *)
Definition resultContent (toolResult : ToolResult.t) : jsstring :=
  if ToolResult.success toolResult then
    let output := default [] (ToolResult.output toolResult) in
    if (200 <? Z.of_nat (length output)) then
      substring0 200 output ++ lit "..."
    else
      match output with
      | [] => [0x2713%N] ++ lit " Success"
      | _ => output
      end
  else
    [0x2717%N] ++ lit " Error: "
    ++ (if truthy (ToolResult.error toolResult)
        then default [] (ToolResult.error toolResult)
        else lit "Unknown error").

(** The predicate of [pendingToolResults.find]. *)
Definition matches (entry : ChatEntry.t)
           (result : GrokToolCall.t * ToolResult.t) : bool :=
  match ChatEntry.type entry with
  | ty_tool_call =>
      match ChatEntry.toolCall entry with
      | Some tc => jsstring_eqb (GrokToolCall.id tc) (GrokToolCall.id result.1)
      | None => false
      end
  | _ => false
  end.

(** The callback of [newHistory.map] in the tool-result block. *)
Definition applyResults (results : list (GrokToolCall.t * ToolResult.t))
           (entry : ChatEntry.t) : ChatEntry.t :=
  if ChatEntry.streaming entry then ChatEntry.stop_streaming entry
  else
    match find (matches entry) results with
    | Some matchingResult =>
        ChatEntry.as_result (resultContent matchingResult.2)
                            matchingResult.2 entry
    | None => entry
    end.

(** [newHistory[idx] = f newHistory[idx]] under [if (idx >= 0)]. *)
Definition updateAt (idx : Z) (f : ChatEntry.t -> ChatEntry.t)
           (h : list ChatEntry.t) : list ChatEntry.t :=
  if 0 <=? idx then alter f (Z.to_nat idx) h else h.

(** The three blocks of the updater that [flushUpdates] passes to
    [setChatHistory]; each takes and returns [newHistory] and the closure
    variables. *)
Definition flushContent (now : Z) (hs : list ChatEntry.t * Session)
  : list ChatEntry.t * Session :=
  let '(newHistory, s) := hs in
  match accumulatedContent s with
  | [] => hs
  | _ :: _ =>
      let '(newHistory, streamingEntry') :=
        match streamingEntry s with
        | None =>
            let newStreamingEntry :=
              ChatEntry.mk ty_assistant (accumulatedContent s) now
                           (Some true) None None None in
            (newHistory ++ [newStreamingEntry], Some newStreamingEntry)
        | Some _ =>
            let streamingIdx := findIndex ChatEntry.streaming newHistory in
            (updateAt streamingIdx
               (fun e => ChatEntry.with_content
                           (ChatEntry.content e ++ accumulatedContent s) e)
               newHistory,
             streamingEntry s)
        end in
      (newHistory,
       mkSession streamingEntry' [] (lastTokenCount s) (pendingToolCalls s)
                 (pendingToolResults s) (lastUpdateTime s)
                 (capturedConfirmationOptions s))
  end.

Definition flushToolCalls (now : Z) (hs : list ChatEntry.t * Session)
  : list ChatEntry.t * Session :=
  let '(newHistory, s) := hs in
  match pendingToolCalls s with
  | None => hs
  | Some toolCalls =>
      let streamingIdx := findIndex ChatEntry.streaming newHistory in
      let newHistory :=
        updateAt streamingIdx (ChatEntry.complete_with toolCalls) newHistory in
      (newHistory ++ (toolCallEntry now <$> toolCalls),
       mkSession None (accumulatedContent s) (lastTokenCount s) None
                 (pendingToolResults s) (lastUpdateTime s)
                 (capturedConfirmationOptions s))
  end.

Definition flushToolResults (hs : list ChatEntry.t * Session)
  : list ChatEntry.t * Session :=
  let '(newHistory, s) := hs in
  if (0 <? Z.of_nat (length (pendingToolResults s))) then
    (applyResults (pendingToolResults s) <$> newHistory,
     mkSession None (accumulatedContent s) (lastTokenCount s)
               (pendingToolCalls s) [] (lastUpdateTime s)
               (capturedConfirmationOptions s))
  else hs.

Definition updater (now : Z) (hs : list ChatEntry.t * Session)
  : list ChatEntry.t * Session :=
  flushToolResults (flushToolCalls now (flushContent now hs)).

(** [flushUpdates]: the throttle, the guard on [confirmationOptions] (the
    binding that the closure holds), then one [setChatHistory] with the
    updater, the token count and the time of the flush. *)
Definition flushUpdates (now : Z) (us : UI * Session) : UI * Session :=
  let '(u, s) := us in
  if (now - lastUpdateTime s <? 250) then us
  else
    match capturedConfirmationOptions s with
    | Some _ => us
    | None =>
        let '(newHistory, s) := updater now (chatHistory u, s) in
        let u := setChatHistory (fun _ => newHistory) u in
        let u :=
          if (lastTokenCount s =? 0) then u
          else setTokenCount (lastTokenCount s) u in
        (u,
         mkSession (streamingEntry s) (accumulatedContent s)
                   (lastTokenCount s) (pendingToolCalls s)
                   (pendingToolResults s) now
                   (capturedConfirmationOptions s))
    end.

(** The body of the [for await] loop for one chunk, with the one clock
    reading [now] of its event for every place that reads the clock;
    [onChunkAt] below has a reading for each place. *)
Definition onChunk (now : Z) (chunk : Chunk.t) (us : UI * Session)
  : UI * Session :=
  let '(u, s) := us in
  let us :=
    match Chunk.type chunk with
    | ch_content =>
        if truthy (Chunk.content chunk) then
          (u, mkSession (streamingEntry s)
                        (accumulatedContent s
                         ++ default [] (Chunk.content chunk))
                        (lastTokenCount s) (pendingToolCalls s)
                        (pendingToolResults s) (lastUpdateTime s)
                        (capturedConfirmationOptions s))
        else us
    | ch_completion =>
        if truthy (Chunk.content chunk) then
          let '(u, s) := flushUpdates now us in
          (setChatHistory
             (fun prev =>
                prev ++ [ChatEntry.mk ty_assistant
                           (default [] (Chunk.content chunk)) now
                           None None None None]) u,
           s)
        else us
    | ch_token_count =>
        match Chunk.tokenCount chunk with
        | Some n =>
            (u, mkSession (streamingEntry s) (accumulatedContent s) n
                          (pendingToolCalls s) (pendingToolResults s)
                          (lastUpdateTime s)
                          (capturedConfirmationOptions s))
        | None => us
        end
    | ch_tool_calls =>
        match Chunk.toolCalls chunk with
        | Some toolCalls =>
            (u, mkSession (streamingEntry s) (accumulatedContent s)
                          (lastTokenCount s) (Some toolCalls)
                          (pendingToolResults s) (lastUpdateTime s)
                          (capturedConfirmationOptions s))
        | None => us
        end
    | ch_tool_result =>
        match Chunk.toolCall chunk, Chunk.toolResult chunk with
        | Some toolCall, Some toolResult =>
            (u, mkSession (streamingEntry s) (accumulatedContent s)
                          (lastTokenCount s) (pendingToolCalls s)
                          (pendingToolResults s ++ [(toolCall, toolResult)])
                          (lastUpdateTime s)
                          (capturedConfirmationOptions s))
        | _, _ => us
        end
    | ch_done => flushUpdates now us
    end in
  flushUpdates now us.

(** The body of the loop with one clock reading per place where the source
    reads the clock: [t1] is the [Date.now()] of the [flushUpdates] call
    inside the completion or done case, [t2] the [new Date()] of the
    completion entry, [t3] the [Date.now()] of the [flushUpdates] call after
    the [switch].  [onChunk now] is [onChunkAt now now now]: the handling
    of a chunk during which the clock does not advance. *)
Definition onChunkAt (t1 t2 t3 : Z) (chunk : Chunk.t) (us : UI * Session)
  : UI * Session :=
  let '(u, s) := us in
  let us :=
    match Chunk.type chunk with
    | ch_content =>
        if truthy (Chunk.content chunk) then
          (u, mkSession (streamingEntry s)
                        (accumulatedContent s
                         ++ default [] (Chunk.content chunk))
                        (lastTokenCount s) (pendingToolCalls s)
                        (pendingToolResults s) (lastUpdateTime s)
                        (capturedConfirmationOptions s))
        else us
    | ch_completion =>
        if truthy (Chunk.content chunk) then
          let '(u, s) := flushUpdates t1 us in
          (setChatHistory
             (fun prev =>
                prev ++ [ChatEntry.mk ty_assistant
                           (default [] (Chunk.content chunk)) t2
                           None None None None]) u,
           s)
        else us
    | ch_token_count =>
        match Chunk.tokenCount chunk with
        | Some n =>
            (u, mkSession (streamingEntry s) (accumulatedContent s) n
                          (pendingToolCalls s) (pendingToolResults s)
                          (lastUpdateTime s)
                          (capturedConfirmationOptions s))
        | None => us
        end
    | ch_tool_calls =>
        match Chunk.toolCalls chunk with
        | Some toolCalls =>
            (u, mkSession (streamingEntry s) (accumulatedContent s)
                          (lastTokenCount s) (Some toolCalls)
                          (pendingToolResults s) (lastUpdateTime s)
                          (capturedConfirmationOptions s))
        | None => us
        end
    | ch_tool_result =>
        match Chunk.toolCall chunk, Chunk.toolResult chunk with
        | Some toolCall, Some toolResult =>
            (u, mkSession (streamingEntry s) (accumulatedContent s)
                          (lastTokenCount s) (pendingToolCalls s)
                          (pendingToolResults s ++ [(toolCall, toolResult)])
                          (lastUpdateTime s)
                          (capturedConfirmationOptions s))
        | _, _ => us
        end
    | ch_done => flushUpdates t1 us
    end in
  flushUpdates t3 us.

(** After the [try]/[catch]: the last two statements of
    [processInitialMessage]. *)
Definition epilogue (u : UI) : UI :=
  setProcessingStartTime 0 (setIsProcessing false u).

(** The iteration ended: final flush and cleanup. *)
Definition onExhausted (now : Z) (us : UI * Session) : UI :=
  let '(u, s) := flushUpdates now us in
  let u :=
    match streamingEntry s with
    | Some _ =>
        setChatHistory
          (fmap (fun entry =>
                   if ChatEntry.streaming entry
                   then ChatEntry.stop_streaming entry else entry)) u
    | None => u
    end in
  epilogue (setIsStreaming false u).

Definition errorMessage (error : Thrown) : jsstring :=
  match error with
  | ErrorObject message => message
  | OtherValue asString => asString
  end.

(** The iteration threw: the [catch] block. *)
Definition onThrown (now : Z) (error : Thrown) (us : UI * Session) : UI :=
  let '(u, _) := us in
  let errorEntry :=
    ChatEntry.mk ty_assistant (lit "Error: " ++ errorMessage error) now
                 None None None None in
  epilogue
    (setIsStreaming false (setChatHistory (fun prev => prev ++ [errorEntry]) u)).

(** ** The component as a state machine *)

Record App := mkApp {
  ui : UI;
  session : option Session
}.

(** The state of the first render. *)
Definition initialUI : UI :=
  mkUI [] false 0 0 false None 0 [[]] [].

(** The effect on [initialMessage]: it shows the user's entry and starts
    [processInitialMessage], which runs up to its first [await]. *)
Definition mount (initialMessage : option jsstring) (now : Z) : App :=
  if truthy initialMessage then
    let userEntry :=
      ChatEntry.mk ty_user (default [] initialMessage) now
                   None None None None in
    let u := setChatHistory (fun _ => [userEntry]) initialUI in
    let u := setIsStreaming true (setIsProcessing true u) in
    mkApp u (Some (mkSession None [] 0 None [] now
                             (confirmationOptions initialUI)))
  else mkApp initialUI None.

Definition handleConfirmationRequest (options : ConfirmationOptions)
           (u : UI) : UI :=
  setConfirmationOptions (Some options) u.

Definition handleConfirmation (dontAskAgain : option bool) (u : UI) : UI :=
  setConfirmationOptions None
    (callService (confirmOperation true dontAskAgain) u).

Definition handleRejection (feedback : option jsstring) (u : UI) : UI :=
  let u := callService (rejectOperation feedback) u in
  let u := setConfirmationOptions None u in
  let u := setIsProcessing false u in
  let u := setIsStreaming false u in
  let u := setTokenCount 0 u in
  let u := setProcessingTime 0 u in
  setProcessingStartTime 0 u.

Inductive Event :=
| ChunkArrived (now : Z) (chunk : Chunk.t)
| Exhausted (now : Z)
| Threw (now : Z) (error : Thrown)
| ConfirmationRequested (options : ConfirmationOptions)
| Confirmed (dontAskAgain : option bool)
| Rejected (feedback : option jsstring).

(** One turn of the event loop.  The stream events reach the loop of
    [processInitialMessage] only while it runs. *)
Definition step (a : App) (ev : Event) : App :=
  match ev, session a with
  | ChunkArrived now chunk, Some s =>
      let '(u, s) := onChunk now chunk (ui a, s) in mkApp u (Some s)
  | Exhausted now, Some s => mkApp (onExhausted now (ui a, s)) None
  | Threw now error, Some s => mkApp (onThrown now error (ui a, s)) None
  | ConfirmationRequested options, _ =>
      mkApp (handleConfirmationRequest options (ui a)) (session a)
  | Confirmed dontAskAgain, _ =>
      mkApp (handleConfirmation dontAskAgain (ui a)) (session a)
  | Rejected feedback, _ =>
      mkApp (handleRejection feedback (ui a)) (session a)
  | _, None => a
  end.

Definition run (a : App) (evs : list Event) : App := foldl step a evs.

End Coalescer.

(** ** Headless mode *)

(** The OpenAI-compatible message objects that [processPromptHeadless]
    builds. *)
Record ToolCallParam := {
  tc_id : jsstring;
  tc_type : jsstring;
  tc_name : jsstring;
  tc_arguments : jsstring
}.

Inductive Message :=
| userMessage (content : jsstring)
| assistantMessage (content : jsstring) (tool_calls : option (list ToolCallParam))
| toolMessage (tool_call_id : jsstring) (content : jsstring).

Definition toolCallParam (toolCall : GrokToolCall.t) : ToolCallParam :=
  {| tc_id := GrokToolCall.id toolCall;
     tc_type := lit "function";
     tc_name := GrokToolCall.name (GrokToolCall.function toolCall);
     tc_arguments := GrokToolCall.arguments (GrokToolCall.function toolCall) |}.

(** One iteration of the [for (const entry of chatEntries)] loop. *)
Definition pushMessage (messages : list Message) (entry : ChatEntry.t)
  : list Message :=
  match ChatEntry.type entry with
  | ty_user => messages ++ [userMessage (ChatEntry.content entry)]
  | ty_assistant =>
      let tool_calls :=
        match ChatEntry.toolCalls entry with
        | Some toolCalls =>
            if (0 <? Z.of_nat (length toolCalls))
            then Some (toolCallParam <$> toolCalls) else None
        | None => None
        end in
      messages ++ [assistantMessage (ChatEntry.content entry) tool_calls]
  | ty_tool_result =>
      match ChatEntry.toolCall entry with
      | Some toolCall =>
          messages ++ [toolMessage (GrokToolCall.id toolCall)
                                   (ChatEntry.content entry)]
      | None => messages
      end
  | ty_tool_call => messages
  end.

Definition convertEntries (chatEntries : list ChatEntry.t) : list Message :=
  foldl pushMessage [] chatEntries.

(** What [agent.processUserMessage] does: it returns the entries or
    throws. *)
Inductive AgentOutcome :=
| Returned (chatEntries : list ChatEntry.t)
| Failed (message : jsstring).

Section Headless.

(** [JSON.stringify] on a message object. *)
Variable JSON_stringify : Message -> jsstring.

(** The lines written by [console.log], in order, and the exit code when
    the process is ended ([None]: the function returns). *)
Definition processPromptHeadless (outcome : AgentOutcome)
  : list jsstring * option Z :=
  match outcome with
  | Returned chatEntries =>
      (JSON_stringify <$> convertEntries chatEntries, None)
  | Failed message =>
      ([JSON_stringify (assistantMessage (lit "Error: " ++ message) None)],
       Some 1)
  end.

End Headless.

(** ** Properties of the log and of the output *)

Fixpoint streamingCount (h : list ChatEntry.t) : nat :=
  match h with
  | [] => 0
  | e :: r => ((if ChatEntry.streaming e then 1 else 0) + streamingCount r)%nat
  end.

Definition atMostOneStreaming (h : list ChatEntry.t) : Prop :=
  (streamingCount h <= 1)%nat.

(** Only assistant entries are ever in progress. *)
Definition streamingAreAssistant (h : list ChatEntry.t) : Prop :=
  Forall (fun e => ChatEntry.streaming e = true ->
                   ChatEntry.type e = ty_assistant) h.

(** [coherent h s]: at most one entry of [h] is in progress, it is an
    assistant entry, and there is none when [streamingEntry] is null. *)
Definition coherent (h : list ChatEntry.t) (s : Session) : Prop :=
  atMostOneStreaming h /\ streamingAreAssistant h /\
  (streamingEntry s = None -> streamingCount h = 0%nat).

(** The invariant of a running session, and of the component alone. *)
Definition sessionInv (us : UI * Session) : Prop :=
  coherent (chatHistory us.1) us.2 /\
  Forall atMostOneStreaming (observed us.1).

Definition uiInv (u : UI) : Prop :=
  atMostOneStreaming (chatHistory u) /\
  streamingAreAssistant (chatHistory u) /\
  Forall atMostOneStreaming (observed u).

Definition appInv (a : App) : Prop :=
  match session a with
  | Some s => sessionInv (ui a, s)
  | None => uiInv (ui a)
  end.

(** The entries a flush appends: one for buffered text when no entry is
    in progress, and one per announced tool call. *)
Definition appended (s : Session) : nat :=
  ((match accumulatedContent s, streamingEntry s with
    | _ :: _, None => 1
    | _, _ => 0
    end)
   + length (default [] (pendingToolCalls s)))%nat.

(** The tool results that the handler of an event adds to the buffer. *)
Definition pushed (ev : Event) : list (GrokToolCall.t * ToolResult.t) :=
  match ev with
  | ChunkArrived _ chunk =>
      match Chunk.type chunk, Chunk.toolCall chunk, Chunk.toolResult chunk with
      | ch_tool_result, Some toolCall, Some toolResult =>
          [(toolCall, toolResult)]
      | _, _, _ => []
      end
  | _ => []
  end.

(** The states of the component after its mount effect and any sequence of
    events. *)
Definition reachable (JSON_parse : jsstring -> option ToolArgs) (a : App)
  : Prop :=
  exists initialMessage t0 evs, a = run JSON_parse (mount initialMessage t0) evs.

(** The success and failure markers. *)
Definition successMarker : jsstring := [0x2713%N] ++ lit " Success".
Definition failurePrefix : jsstring := [0x2717%N] ++ lit " Error: ".

(** The entries that the claim says produce a line. *)
Definition producesLine (entry : ChatEntry.t) : bool :=
  match ChatEntry.type entry with
  | ty_user | ty_assistant => true
  | ty_tool_result => bool_decide (is_Some (ChatEntry.toolCall entry))
  | ty_tool_call => false
  end.

(** The role of a message object. *)
Definition role (m : Message) : EntryType :=
  match m with
  | userMessage _ => ty_user
  | assistantMessage _ _ => ty_assistant
  | toolMessage _ _ => ty_tool_result
  end.

(** What a content chunk adds to the buffer. *)
Definition payload (chunk : Chunk.t) : jsstring :=
  if truthy (Chunk.content chunk) then default [] (Chunk.content chunk) else [].

Definition streamed (c : jsstring) (t : Z) (flag : bool) : ChatEntry.t :=
  ChatEntry.mk ty_assistant c t (Some flag) None None None.

(** While only content chunks arrive: the log is the first entry, followed
    by the in-progress entry once a flush has made it, and the text shown
    plus the text buffered is the text received. *)
Definition contentInv (first : ChatEntry.t) (received : jsstring)
           (us : UI * Session) : Prop :=
  capturedConfirmationOptions us.2 = None /\
  pendingToolCalls us.2 = None /\
  pendingToolResults us.2 = [] /\
  ((streamingEntry us.2 = None /\ chatHistory us.1 = [first] /\
    accumulatedContent us.2 = received) \/
   (is_Some (streamingEntry us.2) /\
    exists c t, c <> [] /\
                chatHistory us.1 = [first; streamed c t true] /\
                c ++ accumulatedContent us.2 = received)).

(** ** How the log may change *)

(** [sameSlot e e']: [e'] can stand where [e] stood.  It has the time stamp
    and the tool call of [e]; its type is the type of [e], or that of a
    result when [e] is a tool call; while the type stays, its text extends
    the text of [e]; and it is [e] itself when [e] is neither in progress nor
    a tool call. *)
Definition sameSlot (e e' : ChatEntry.t) : Prop :=
  ChatEntry.timestamp e' = ChatEntry.timestamp e /\
  ChatEntry.toolCall e' = ChatEntry.toolCall e /\
  (ChatEntry.type e' = ChatEntry.type e \/
   (ChatEntry.type e = ty_tool_call /\ ChatEntry.type e' = ty_tool_result)) /\
  (ChatEntry.type e' = ChatEntry.type e ->
   exists more, ChatEntry.content e' = ChatEntry.content e ++ more) /\
  (ChatEntry.streaming e = false -> ChatEntry.type e <> ty_tool_call ->
   e' = e).

(** [evolves h h']: every entry of [h] has a successor at its index in
    [h']. *)
Definition evolves (h h' : list ChatEntry.t) : Prop :=
  forall i e, h !! i = Some e -> exists e', h' !! i = Some e' /\ sameSlot e e'.

(** A list of logs, newest first, each evolved from the one before it. *)
Fixpoint chain (l : list (list ChatEntry.t)) : Prop :=
  match l with
  | h' :: r =>
      match r with
      | h :: _ => evolves h h' /\ chain r
      | [] => True
      end
  | [] => True
  end.

(** A list of logs, oldest first, each evolved from all the earlier ones. *)
Fixpoint ascending (hs : list (list ChatEntry.t)) : Prop :=
  match hs with
  | [] => True
  | h :: r => Forall (evolves h) r /\ ascending r
  end.

(** ** The session log *)

(** The line feed. *)
Definition newline : jsstring := [10%N].

(** [Array.prototype.join] *)
Fixpoint join (sep : jsstring) (l : list jsstring) : jsstring :=
  match l with
  | [] => []
  | x :: r =>
      match r with
      | [] => x
      | _ :: _ => x ++ sep ++ join sep r
      end
  end.

(** The ref [lastChatHistoryLength] and the text of [~/.grok/session.log]. *)
Record LogState := mkLogState {
  lastChatHistoryLength : nat;
  sessionFile : jsstring
}.

Section SessionLog.

(** [JSON.stringify] on a chat entry. *)
Variable JSON_stringify : ChatEntry.t -> jsstring.

(** The effect on [chatHistory] that appends the new entries to the session
    file.  [fsOk] tells whether the file system calls of the [try] block
    succeed; when one throws, the [catch] ignores it. *)
Definition sessionLogEffect (fsOk : bool) (chatHistory : list ChatEntry.t)
           (st : LogState) : LogState :=
  let newEntries := drop (lastChatHistoryLength st) chatHistory in
  let file :=
    if (0 <? Z.of_nat (length newEntries)) && fsOk then
      sessionFile st ++ (join newline (JSON_stringify <$> newEntries)
                         ++ newline)
    else sessionFile st in
  mkLogState (length chatHistory) file.

(** The effect over successive renders, oldest first. *)
Definition sessionLogRenders (renders : list (bool * list ChatEntry.t))
           (st : LogState) : LogState :=
  foldl (fun st r => sessionLogEffect r.1 r.2 st) st renders.

(** The line written for one entry. *)
Definition logLine (e : ChatEntry.t) : jsstring :=
  JSON_stringify e ++ newline.

End SessionLog.

(** The renders are consistent with the log: the newest is the log itself
    and each evolved from the one before. *)
(** The entry at index [i] in the first of [renders] (oldest first) that
    has an entry there. *)
Fixpoint firstRendered (renders : list (list ChatEntry.t)) (i : nat)
  : option ChatEntry.t :=
  match renders with
  | [] => None
  | h :: later =>
      match h !! i with
      | Some e => Some e
      | None => firstRendered later i
      end
  end.

Definition logInv (u : UI) : Prop :=
  head (observed u) = Some (chatHistory u) /\ chain (observed u).

(** ** The token count *)

(** The count shown is the one of [shown], or the last count reported when
    that is not 0. *)
Definition countFrom (shown : Z) (us : UI * Session) : Prop :=
  tokenCount us.1 = shown \/
  (tokenCount us.1 = lastTokenCount us.2 /\ tokenCount us.1 <> 0).

(** ** The processing clock *)

(** The effect on [isProcessing], [isStreaming] and [confirmationOptions]:
    the component after it, and whether it leaves an interval running (the
    cleanup of the effect clears the interval before the next run). *)
Definition processingTimeEffect (now : Z) (u : UI) : UI * bool :=
  match confirmationOptions u with
  | Some _ => (u, false)
  | None =>
      if negb (isProcessing u) && negb (isStreaming u) then
        (setProcessingTime 0 u, false)
      else
        ((if processingStartTime u =? 0
          then setProcessingStartTime now u else u),
         true)
  end.

(** The callback of the interval: whole seconds since the start. *)
Definition intervalTick (now : Z) (u : UI) : UI :=
  setProcessingTime ((now - processingStartTime u) / 1000) u.

(** ** The command line *)

Module CLI.

(** The options that commander hands to the action. *)
Record Options := mkOptions {
  directory : option jsstring;
  apiKey : option jsstring;
  baseUrl : option jsstring;
  model : option jsstring;
  prompt : option jsstring;
  maxToolRounds : option jsstring;
  forceTty : bool
}.

(** What the action gets from the process, the settings manager and the
    agent.  [chdirThrows]: whether [process.chdir] throws;
    [loadApiKeyThrows], [loadBaseURLThrows]: whether the call of
    [loadApiKey] or [loadBaseURL] throws, and [getApiKey], [getBaseURL] what
    it returns otherwise; [getCurrentModel]: the current model of the
    settings, [None] when the call throws; [agent]: what the construction of
    the agent and [agent.processUserMessage] do in the headless run;
    [renderThrows]: whether the construction of the agent or [render] throws
    in the interactive run.  [process.cwd] and [parseInt] return. *)
Record Host := mkHost {
  cwd : jsstring;
  chdirThrows : bool;
  GROK_API_KEY : option jsstring;
  GROK_BASE_URL : option jsstring;
  GROK_MODEL : option jsstring;
  stdoutIsTTY : bool;
  loadApiKeyThrows : bool;
  getApiKey : option jsstring;
  loadBaseURLThrows : bool;
  getBaseURL : jsstring;
  getCurrentModel : option jsstring;
  agent : AgentOutcome;
  renderThrows : bool
}.

(** What the action starts: nothing ([process.exit(1)] after a message on
    the error stream, from the [catch] block, the check of the API key or
    the check of the terminal), the headless run, or the chat interface. *)
Inductive Launch :=
| exit1
| headless (prompt apiKey : jsstring) (baseURL model : option jsstring)
           (maxToolRounds : option (option Z))
| chat (apiKey : jsstring) (baseURL model : option jsstring)
       (maxToolRounds : option (option Z)) (initialMessage : option jsstring).

(** [printed]: the lines that the headless run writes; [exitCode]: the code
    of [process.exit], [None] when the action returns. *)
Record Result := mkResult {
  chdirTo : option jsstring;
  saved : list (jsstring * jsstring);
  launch : Launch;
  printed : list jsstring;
  exitCode : option Z
}.

Definition loadModel (host : Host) : option jsstring :=
  if truthy (GROK_MODEL host) then GROK_MODEL host
  else
    match getCurrentModel host with
    | Some m => Some m
    | None => GROK_MODEL host
    end.

(** The updates that [saveCommandLineSettings] asks the settings manager
    for, as (key, value) pairs. *)
Definition saveCommandLineSettings (apiKey baseURL : option jsstring)
  : list (jsstring * jsstring) :=
  (if truthy apiKey then [(lit "apiKey", default [] apiKey)] else [])
  ++ (if truthy baseURL then [(lit "baseURL", default [] baseURL)] else []).

Section Action.

(** [parseInt]: [None] stands for NaN. *)
Variable parseInt : jsstring -> option Z.

(** [JSON.stringify] on a message object. *)
Variable JSON_stringify : Message -> jsstring.

(** The [catch] block of the action, and the two checks that end the
    process: nothing is launched and the exit code is 1. *)
Definition exits (chdirTo : option jsstring)
           (saved : list (jsstring * jsstring)) : Result :=
  mkResult chdirTo saved exit1 [] (Some 1).

(** The action of the main command, for the words of [message]. *)
Definition action (message : list jsstring) (options : Options) (host : Host)
  : Result :=
  let target :=
    if truthy (directory options)
       && negb (jsstring_eqb (default [] (directory options)) (cwd host))
    then directory options else None in
  if bool_decide (is_Some target) && chdirThrows host then exits None []
  else
    let given := js_or (apiKey options) (GROK_API_KEY host) in
    if negb (truthy given) && loadApiKeyThrows host then exits target []
    else
      let apiKey := js_or given (getApiKey host) in
      let urlGiven := js_or (baseUrl options) (GROK_BASE_URL host) in
      if negb (truthy urlGiven) && loadBaseURLThrows host then exits target []
      else
        let baseURL := js_or urlGiven (Some (getBaseURL host)) in
        let model := js_or (model options) (loadModel host) in
        let maxToolRounds :=
          if truthy (maxToolRounds options)
          then Some (parseInt (default [] (maxToolRounds options)))
          else None in
        if negb (truthy apiKey) then exits target []
        else
          let saved :=
            if truthy (CLI.apiKey options) || truthy (baseUrl options)
            then saveCommandLineSettings (CLI.apiKey options)
                                         (baseUrl options)
            else [] in
          if truthy (prompt options) then
            let out := processPromptHeadless JSON_stringify (agent host) in
            mkResult target saved
                     (headless (default [] (prompt options))
                               (default [] apiKey) baseURL model
                               maxToolRounds)
                     out.1 out.2
          else if negb (forceTty options) && negb (stdoutIsTTY host) then
            exits target saved
          else if renderThrows host then exits target saved
          else
            mkResult target saved
                     (chat (default [] apiKey) baseURL model maxToolRounds
                           (if (0 <? Z.of_nat (length message))
                            then Some (join (lit " ") message) else None))
                     [] None.

End Action.

(** The API key that a launch uses. *)
Definition launchKey (l : Launch) : option jsstring :=
  match l with
  | exit1 => None
  | headless _ k _ _ _ => Some k
  | chat k _ _ _ _ => Some k
  end.

End CLI.

(** ** Members of the headless messages *)

Definition messageContent (m : Message) : jsstring :=
  match m with
  | userMessage c => c
  | assistantMessage c _ => c
  | toolMessage _ c => c
  end.

Definition messageCallId (m : Message) : option jsstring :=
  match m with
  | toolMessage i _ => Some i
  | _ => None
  end.

Definition messageToolCalls (m : Message) : option (list ToolCallParam) :=
  match m with
  | assistantMessage _ tcs => tcs
  | _ => None
  end.

(** ** Concrete data for the examples *)

Module Ex.
(** The JSON text of an object with a [command] member. *)
Definition commandJSON (c : string) : jsstring :=
  lit "{" ++ [34%N] ++ lit "command" ++ [34%N] ++ lit ":"
  ++ [34%N] ++ lit c ++ [34%N] ++ lit "}".

(** A parser that knows two texts: the empty object, and the object whose
    command is [rm file.txt]. *)
Definition parse (arguments : jsstring) : option ToolArgs :=
  if jsstring_eqb arguments (lit "{}") then
    Some {| path := None; file_path := None; command := None; query := None |}
  else if jsstring_eqb arguments (commandJSON "rm file.txt") then
    Some {| path := None; file_path := None;
            command := Some (lit "rm file.txt"); query := None |}
  else None.

Definition contentChunk (s : string) : Chunk.t :=
  Chunk.mk ch_content (Some (lit s)) None None None None.
Definition completionChunk (s : string) : Chunk.t :=
  Chunk.mk ch_completion (Some (lit s)) None None None None.
Definition doneChunk : Chunk.t :=
  Chunk.mk ch_done None None None None None.

Definition lsCall : GrokToolCall.t :=
  GrokToolCall.mk (lit "1") (GrokToolCall.mkfn (lit "bash") (lit "{}")).
Definition toolCallsChunk : Chunk.t :=
  Chunk.mk ch_tool_calls None None (Some [lsCall]) None None.
Definition toolResultChunk (r : ToolResult.t) : Chunk.t :=
  Chunk.mk ch_tool_result None None None (Some lsCall) (Some r).
Definition okResult : ToolResult.t :=
  ToolResult.mk true (Some (lit "ok")) None.
Definition emptyResult : ToolResult.t :=
  ToolResult.mk true (Some []) None.
Definition failedEmpty : ToolResult.t :=
  ToolResult.mk false None (Some []).
Definition rmCall : GrokToolCall.t :=
  GrokToolCall.mk (lit "1")
                  (GrokToolCall.mkfn (lit "bash") (commandJSON "rm file.txt")).
Definition dialog : ConfirmationOptions :=
  {| operation := lit "Run bash command"; filename := lit "rm file.txt";
     showVSCodeOpen := None; previewContent := None |}.
Definition userEntry (s : string) (now : Z) : ChatEntry.t :=
  ChatEntry.mk ty_user (lit s) now None None None None.
End Ex.

(** ** More concrete data *)

Module Ex2.
(** A stand-in for [JSON.stringify] that shows the text of an entry. *)
Definition show (e : ChatEntry.t) : jsstring := ChatEntry.content e.

(** The first scenario, with flushes that pass the throttle. *)
Definition hello : App :=
  run Ex.parse (mount (Some (lit "hello")) 0)
      [ChunkArrived 300 (Ex.contentChunk "Hi");
       ChunkArrived 600 (Ex.contentChunk " there");
       Exhausted 900].
End Ex2.

(** * Proofs *)

(** ** Facts on arrays *)

Lemma findIndex_found {A} (p : A -> bool) (l : list A) :
  0 <= findIndex p l ->
  exists x, l !! Z.to_nat (findIndex p l) = Some x /\ p x = true.
Proof.
  induction l as [|x r IH]; simpl; [lia|].
  destruct (p x) eqn:Hp; [exists x; auto|].
  destruct (Z.ltb_spec (findIndex p r) 0) as [Hlt|Hge]; [lia|].
  intros _. destruct (IH Hge) as (y & Hy & Hpy). exists y. split; [|done].
  replace (Z.to_nat (findIndex p r + 1)) with (S (Z.to_nat (findIndex p r)))
    by lia.
  done.
Qed.

Lemma findIndex_none {A} (p : A -> bool) (l : list A) :
  findIndex p l < 0 -> Forall (fun x => p x = false) l.
Proof.
  induction l as [|x r IH]; simpl; [constructor|].
  destruct (p x) eqn:Hp; [lia|].
  destruct (Z.ltb_spec (findIndex p r) 0) as [Hlt|Hge]; [|lia].
  intros _. constructor; auto.
Qed.

Lemma find_some {A} (p : A -> bool) (l : list A) x :
  x ∈ l -> p x = true -> exists y, find p l = Some y /\ y ∈ l /\ p y = true.
Proof.
  induction l as [|z r IH]; intros Hin Hp; [by apply elem_of_nil in Hin|].
  simpl. destruct (p z) eqn:Hz.
  - exists z. split_and!; [done|left|done].
  - apply elem_of_cons in Hin as [->|Hin]; [congruence|].
    destruct (IH Hin Hp) as (y & ? & ? & ?). exists y. split_and!; [done|by right|done].
Qed.

Lemma updateAt_length idx f h : length (updateAt idx f h) = length h.
Proof. unfold updateAt. destruct (0 <=? idx); [apply length_alter|done]. Qed.

(** ** Facts on the count *)

Lemma streamingCount_app h1 h2 :
  streamingCount (h1 ++ h2) = (streamingCount h1 + streamingCount h2)%nat.
Proof. induction h1 as [|e r IH]; simpl; [done|]. rewrite IH. lia. Qed.

Lemma streamingCount_zero h :
  streamingCount h = 0%nat <-> Forall (fun e => ChatEntry.streaming e = false) h.
Proof.
  induction h as [|e r IH]; simpl.
  - split; [constructor|done].
  - rewrite Forall_cons. destruct (ChatEntry.streaming e); simpl.
    + split; [lia|]. intros [? _]. done.
    + rewrite IH. tauto.
Qed.

(** Updating the first in-progress entry without touching its flag. *)
Lemma streamingCount_update_same f h :
  (forall e, ChatEntry.streaming (f e) = ChatEntry.streaming e) ->
  streamingCount (updateAt (findIndex ChatEntry.streaming h) f h)
  = streamingCount h.
Proof.
  intros Hf. unfold updateAt.
  destruct (0 <=? findIndex ChatEntry.streaming h); [|done].
  generalize (Z.to_nat (findIndex ChatEntry.streaming h)) as n.
  induction h as [|e r IH]; intros [|n]; simpl; try done.
  - by rewrite Hf.
  - f_equal. apply IH.
Qed.

(** Clearing the flag of the first in-progress entry. *)
Lemma streamingCount_update_clear f h :
  (forall e, ChatEntry.streaming (f e) = false) ->
  streamingCount (updateAt (findIndex ChatEntry.streaming h) f h)
  = pred (streamingCount h).
Proof.
  intros Hf. unfold updateAt.
  induction h as [|e r IH]; simpl; [done|].
  destruct (ChatEntry.streaming e) eqn:He; simpl.
  - by rewrite Hf.
  - destruct (Z.ltb_spec (findIndex ChatEntry.streaming r) 0) as [Hlt|Hge]; simpl.
    + rewrite He. simpl.
      apply findIndex_none, streamingCount_zero in Hlt. by rewrite Hlt.
    + destruct (Z.leb_spec 0 (findIndex ChatEntry.streaming r + 1)); [|lia].
      replace (Z.to_nat (findIndex ChatEntry.streaming r + 1))
        with (S (Z.to_nat (findIndex ChatEntry.streaming r))) by lia.
      simpl. rewrite He. simpl.
      destruct (Z.leb_spec 0 (findIndex ChatEntry.streaming r)); [|lia].
      done.
Qed.

Lemma streamingCount_map_zero {A} (f : A -> ChatEntry.t) (h : list A) :
  (forall e, ChatEntry.streaming (f e) = false) ->
  streamingCount (f <$> h) = 0%nat.
Proof.
  intros Hf. induction h as [|e r IH]; [done|].
  rewrite fmap_cons. simpl. by rewrite Hf, IH.
Qed.

(** A stored entry that is not in progress survives an update of the first
    in-progress entry. *)
Lemma updateAt_streaming_other f h i e :
  h !! i = Some e -> ChatEntry.streaming e = false ->
  updateAt (findIndex ChatEntry.streaming h) f h !! i = Some e.
Proof.
  intros Hi He. unfold updateAt.
  destruct (Z.leb_spec 0 (findIndex ChatEntry.streaming h)) as [Hge|]; [|done].
  destruct (findIndex_found _ _ Hge) as (x & Hx & Hpx).
  rewrite list_lookup_alter_ne; [done|]. intros <-. congruence.
Qed.

Lemma updateAt_Forall (P : ChatEntry.t -> Prop) idx f h :
  (forall e, P e -> P (f e)) -> Forall P h -> Forall P (updateAt idx f h).
Proof.
  intros Hf Hh. unfold updateAt. destruct (0 <=? idx); [|done].
  apply Forall_lookup. intros i x.
  rewrite list_lookup_alter. case_decide.
  - destruct (h !! Z.to_nat idx) as [y|] eqn:Hy; simpl; [|done].
    intros [= <-]. apply Hf. by eapply Forall_lookup_1.
  - intros Hx. by eapply Forall_lookup_1.
Qed.

(** ** The log stays coherent with the closure variables *)

Ltac count_idle := unfold atMostOneStreaming; simpl; lia.

Section Invariant.

Variable JSON_parse : jsstring -> option ToolArgs.

Lemma applyResults_idle results e :
  ChatEntry.streaming (applyResults results e) = false.
Proof.
  unfold applyResults. destruct (ChatEntry.streaming e) eqn:He; [done|].
  destruct (find _ _); [|done]. unfold ChatEntry.streaming in *. done.
Qed.

Lemma flushContent_coherent now h s :
  coherent h s ->
  coherent (flushContent now (h, s)).1 (flushContent now (h, s)).2.
Proof.
  intros (Hone & Hty & Hnone). unfold flushContent.
  destruct (accumulatedContent s) as [|c acc] eqn:Hacc; [done|].
  destruct (streamingEntry s) as [se|] eqn:Hse; simpl.
  - split_and!.
    + unfold atMostOneStreaming.
      rewrite streamingCount_update_same; [done|]. by intros [].
    + apply updateAt_Forall; [|done]. by intros [].
    + done.
  - specialize (Hnone eq_refl). split_and!.
    + unfold atMostOneStreaming. rewrite streamingCount_app, Hnone. simpl. lia.
    + apply Forall_app. split; [done|]. by apply Forall_singleton.
    + done.
Qed.

Lemma flushToolCalls_coherent now h s :
  coherent h s ->
  coherent (flushToolCalls JSON_parse now (h, s)).1
           (flushToolCalls JSON_parse now (h, s)).2.
Proof.
  intros (Hone & Hty & Hnone). unfold flushToolCalls.
  destruct (pendingToolCalls s) as [tcs|] eqn:Htcs; [|done]. simpl.
  assert (Hz : streamingCount
                 (updateAt (findIndex ChatEntry.streaming h)
                           (ChatEntry.complete_with tcs) h
                  ++ (toolCallEntry JSON_parse now <$> tcs)) = 0%nat).
  { rewrite streamingCount_app, streamingCount_update_clear by done.
    rewrite streamingCount_map_zero by done.
    unfold atMostOneStreaming in Hone. lia. }
  split_and!.
  - unfold atMostOneStreaming. lia.
  - apply Forall_app. split.
    + apply updateAt_Forall; [|done]. by intros [].
    + apply Forall_fmap, Forall_forall. by intros.
  - done.
Qed.

Lemma flushToolResults_coherent h s :
  coherent h s ->
  coherent (flushToolResults (h, s)).1 (flushToolResults (h, s)).2.
Proof.
  intros Hc. unfold flushToolResults.
  destruct (0 <? Z.of_nat (length (pendingToolResults s))); [|done]. simpl.
  assert (Hz : streamingCount (applyResults (pendingToolResults s) <$> h)
               = 0%nat)
    by (apply streamingCount_map_zero, applyResults_idle).
  split_and!.
  - unfold atMostOneStreaming. lia.
  - apply Forall_fmap, Forall_forall. intros e _ He. simpl in He.
    by rewrite applyResults_idle in He.
  - done.
Qed.

Lemma updater_coherent now h s :
  coherent h s ->
  coherent (updater JSON_parse now (h, s)).1 (updater JSON_parse now (h, s)).2.
Proof.
  intros Hc. unfold updater.
  pose proof (flushContent_coherent now h s Hc) as H1.
  destruct (flushContent now (h, s)) as [h1 s1].
  pose proof (flushToolCalls_coherent now h1 s1 H1) as H2.
  destruct (flushToolCalls JSON_parse now (h1, s1)) as [h2 s2].
  apply flushToolResults_coherent, H2.
Qed.

Lemma coherent_same_entry h s s' :
  streamingEntry s' = streamingEntry s -> coherent h s -> coherent h s'.
Proof. intros E (? & ? & ?). unfold coherent. rewrite E. auto. Qed.

Lemma sessionInv_ui u s : sessionInv (u, s) -> uiInv u.
Proof. intros ((? & ? & ?) & ?). unfold uiInv. auto. Qed.

Lemma flushUpdates_inv now us :
  sessionInv us -> sessionInv (flushUpdates JSON_parse now us).
Proof.
  destruct us as [u s]. intros [Hc Hobs]. unfold flushUpdates.
  destruct (now - lastUpdateTime s <? 250); [by split|].
  destruct (capturedConfirmationOptions s); [by split|].
  pose proof (updater_coherent now _ _ Hc) as H1. simpl in H1.
  destruct (updater JSON_parse now (chatHistory u, s)) as [h1 s1].
  simpl in H1.
  assert (Hobs' : Forall atMostOneStreaming (h1 :: observed u))
    by (constructor; [apply H1|done]).
  destruct (lastTokenCount s1 =? 0); split; simpl;
    solve [ done | by eapply coherent_same_entry; [|exact H1] ].
Qed.

Lemma append_idle_inv u s e :
  ChatEntry.streaming e = false ->
  sessionInv (u, s) ->
  sessionInv (setChatHistory (fun prev => prev ++ [e]) u, s).
Proof.
  intros He ((Hone & Hty & Hnone) & Hobs). simpl in *.
  assert (Hcnt : streamingCount (chatHistory u ++ [e])
                 = streamingCount (chatHistory u))
    by (rewrite streamingCount_app; simpl; rewrite He; lia).
  assert (Hone' : atMostOneStreaming (chatHistory u ++ [e]))
    by (unfold atMostOneStreaming in *; lia).
  split; [split_and!|]; simpl.
  - done.
  - apply Forall_app. split; [done|]. apply Forall_singleton. congruence.
  - intros E. rewrite Hcnt. auto.
  - by constructor.
Qed.

Lemma onChunk_inv now chunk us :
  sessionInv us -> sessionInv (onChunk JSON_parse now chunk us).
Proof.
  destruct us as [u s]. intros Hinv. unfold onChunk.
  apply flushUpdates_inv.
  destruct (Chunk.type chunk).
  - by destruct (truthy (Chunk.content chunk)).
  - destruct (truthy (Chunk.content chunk)); [|done].
    pose proof (flushUpdates_inv now _ Hinv) as H1.
    destruct (flushUpdates JSON_parse now (u, s)) as [u1 s1].
    by apply append_idle_inv.
  - by destruct (Chunk.tokenCount chunk).
  - by destruct (Chunk.toolCalls chunk).
  - by destruct (Chunk.toolCall chunk), (Chunk.toolResult chunk).
  - by apply flushUpdates_inv.
Qed.

Lemma onExhausted_inv now us :
  sessionInv us -> uiInv (onExhausted JSON_parse now us).
Proof.
  intros Hinv. unfold onExhausted.
  pose proof (flushUpdates_inv now _ Hinv) as H1.
  destruct (flushUpdates JSON_parse now us) as [u1 s1].
  destruct (streamingEntry s1); [|by apply sessionInv_ui in H1].
  destruct H1 as [_ Hobs]. simpl in Hobs.
  set (clear := fun entry : ChatEntry.t =>
                  if ChatEntry.streaming entry
                  then ChatEntry.stop_streaming entry else entry).
  assert (Hz : streamingCount (clear <$> chatHistory u1) = 0%nat).
  { apply streamingCount_map_zero. intros e. unfold clear.
    by destruct (ChatEntry.streaming e) eqn:He. }
  assert (Hone : atMostOneStreaming (clear <$> chatHistory u1))
    by (unfold atMostOneStreaming; lia).
  unfold uiInv. simpl. split_and!.
  - done.
  - apply streamingCount_zero in Hz.
    eapply Forall_impl; [exact Hz|]. simpl. congruence.
  - by constructor.
Qed.

Lemma onThrown_inv now error us :
  sessionInv us -> uiInv (onThrown now error us).
Proof.
  destruct us as [u s]. intros Hinv. unfold onThrown.
  set (errorEntry := ChatEntry.mk _ _ _ _ _ _ _).
  apply (append_idle_inv u s errorEntry eq_refl), sessionInv_ui in Hinv.
  exact Hinv.
Qed.

Lemma mount_inv initialMessage now : appInv (mount initialMessage now).
Proof.
  unfold mount, appInv.
  destruct (truthy initialMessage); simpl.
  - split; [split_and!|]; simpl.
    + count_idle.
    + apply Forall_singleton. done.
    + done.
    + rewrite !Forall_cons. split_and!; [count_idle..|constructor].
  - unfold uiInv. simpl. split_and!.
    + count_idle.
    + constructor.
    + apply Forall_singleton. count_idle.
Qed.

Lemma appInv_same_log a u :
  chatHistory u = chatHistory (ui a) -> observed u = observed (ui a) ->
  appInv a -> appInv (mkApp u (session a)).
Proof.
  unfold appInv, sessionInv, uiInv. simpl. intros -> ->.
  by destruct (session a).
Qed.

Lemma step_inv a ev : appInv a -> appInv (step JSON_parse a ev).
Proof.
  intros Hinv. unfold step.
  destruct ev as [now chunk|now|now error|options|dontAskAgain|feedback];
    try (by apply appInv_same_log);
    destruct (session a) as [s|] eqn:Hs; try done;
    unfold appInv in Hinv; rewrite Hs in Hinv.
  - pose proof (onChunk_inv now chunk _ Hinv) as H1.
    by destruct (onChunk JSON_parse now chunk (ui a, s)).
  - by apply onExhausted_inv.
  - by apply onThrown_inv.
Qed.

Lemma run_inv a evs : appInv a -> appInv (run JSON_parse a evs).
Proof.
  revert a. induction evs as [|ev evs IH]; intros a Hinv; [done|].
  apply IH, step_inv, Hinv.
Qed.

Lemma appInv_ui a : appInv a -> uiInv (ui a).
Proof.
  unfold appInv. destruct (session a); [apply sessionInv_ui|done].
Qed.

End Invariant.

(** ** What one flush does to a stored entry and to the length of the log *)

Section Flush.

Variable JSON_parse : jsstring -> option ToolArgs.

Lemma flushContent_results now h s :
  pendingToolResults (flushContent now (h, s)).2 = pendingToolResults s /\
  pendingToolCalls (flushContent now (h, s)).2 = pendingToolCalls s.
Proof.
  unfold flushContent. destruct (accumulatedContent s); [done|].
  by destruct (streamingEntry s).
Qed.

Lemma flushToolCalls_results now h s :
  pendingToolResults (flushToolCalls JSON_parse now (h, s)).2
  = pendingToolResults s.
Proof. unfold flushToolCalls. by destruct (pendingToolCalls s). Qed.

Lemma flushContent_keeps now h s i e :
  h !! i = Some e -> ChatEntry.streaming e = false ->
  (flushContent now (h, s)).1 !! i = Some e.
Proof.
  intros Hi He. unfold flushContent.
  destruct (accumulatedContent s); [done|].
  destruct (streamingEntry s); simpl.
  - by apply updateAt_streaming_other.
  - by apply lookup_app_l_Some.
Qed.

Lemma flushToolCalls_keeps now h s i e :
  h !! i = Some e -> ChatEntry.streaming e = false ->
  (flushToolCalls JSON_parse now (h, s)).1 !! i = Some e.
Proof.
  intros Hi He. unfold flushToolCalls.
  destruct (pendingToolCalls s); [|done]. simpl.
  by apply lookup_app_l_Some, updateAt_streaming_other.
Qed.

Lemma updater_length now h s :
  length (updater JSON_parse now (h, s)).1 = (length h + appended s)%nat.
Proof.
  unfold updater, appended.
  assert (H1 : length (flushContent now (h, s)).1
               = (length h + match accumulatedContent s, streamingEntry s with
                             | _ :: _, None => 1
                             | _, _ => 0
                             end)%nat).
  { unfold flushContent. destruct (accumulatedContent s); simpl; [lia|].
    destruct (streamingEntry s); simpl.
    - rewrite updateAt_length. lia.
    - rewrite length_app. simpl. lia. }
  pose proof (flushContent_results now h s) as [_ H2].
  destruct (flushContent now (h, s)) as [h1 s1]. simpl in H1, H2.
  assert (H3 : length (flushToolCalls JSON_parse now (h1, s1)).1
               = (length h1 + length (default [] (pendingToolCalls s1)))%nat).
  { unfold flushToolCalls. destruct (pendingToolCalls s1); simpl; [|lia].
    by rewrite length_app, updateAt_length, length_fmap. }
  destruct (flushToolCalls JSON_parse now (h1, s1)) as [h2 s2]. simpl in H3.
  unfold flushToolResults.
  destruct (0 <? Z.of_nat (length (pendingToolResults s2))); simpl.
  - rewrite length_fmap. rewrite H3, H1, H2. lia.
  - rewrite H3, H1, H2. lia.
Qed.

(** The log after an effective flush. *)
Lemma flushUpdates_effective now u s :
  250 <= now - lastUpdateTime s -> capturedConfirmationOptions s = None ->
  chatHistory (flushUpdates JSON_parse now (u, s)).1
  = (updater JSON_parse now (chatHistory u, s)).1.
Proof.
  intros Ht Hc. unfold flushUpdates.
  destruct (Z.ltb_spec (now - lastUpdateTime s) 250); [lia|].
  rewrite Hc. destruct (updater JSON_parse now (chatHistory u, s)) as [h1 s1].
  by destruct (lastTokenCount s1 =? 0).
Qed.

Lemma updater_converts now h s i e r :
  h !! i = Some e -> ChatEntry.streaming e = false ->
  find (matches e) (pendingToolResults s) = Some r ->
  (updater JSON_parse now (h, s)).1 !! i
  = Some (ChatEntry.as_result (resultContent r.2) r.2 e).
Proof.
  intros Hi He Hr. unfold updater.
  pose proof (flushContent_keeps now h s i e Hi He) as H1.
  pose proof (flushContent_results now h s) as [R1 _].
  destruct (flushContent now (h, s)) as [h1 s1]. simpl in H1, R1.
  pose proof (flushToolCalls_keeps now h1 s1 i e H1 He) as H2.
  pose proof (flushToolCalls_results now h1 s1) as R2.
  destruct (flushToolCalls JSON_parse now (h1, s1)) as [h2 s2].
  simpl in H2, R2. rewrite R1 in R2.
  unfold flushToolResults. rewrite R2.
  destruct (pendingToolResults s) as [|p ps] eqn:Hp; [done|].
  simpl length. destruct (Z.ltb_spec 0 (Z.of_nat (S (length ps)))); [|lia].
  simpl. rewrite list_lookup_fmap, H2. simpl.
  unfold applyResults. by rewrite He, Hr.
Qed.

Lemma flushUpdates_converts now u s i e r :
  250 <= now - lastUpdateTime s -> capturedConfirmationOptions s = None ->
  chatHistory u !! i = Some e -> ChatEntry.streaming e = false ->
  find (matches e) (pendingToolResults s) = Some r ->
  chatHistory (flushUpdates JSON_parse now (u, s)).1 !! i
  = Some (ChatEntry.as_result (resultContent r.2) r.2 e).
Proof.
  intros Ht Hc Hi He Hr. rewrite flushUpdates_effective by done.
  by apply updater_converts.
Qed.

(** A flush refused by the throttle or by the guard changes nothing. *)
Lemma flushUpdates_refused now u s :
  now - lastUpdateTime s < 250 \/ is_Some (capturedConfirmationOptions s) ->
  flushUpdates JSON_parse now (u, s) = (u, s).
Proof.
  intros H. unfold flushUpdates.
  destruct (Z.ltb_spec (now - lastUpdateTime s) 250); [done|].
  destruct H as [?|[o Ho]]; [lia|]. by rewrite Ho.
Qed.

Lemma flushUpdates_stamp now u s :
  250 <= now - lastUpdateTime s -> capturedConfirmationOptions s = None ->
  lastUpdateTime (flushUpdates JSON_parse now (u, s)).2 = now.
Proof.
  intros Ht Hc. unfold flushUpdates.
  destruct (Z.ltb_spec (now - lastUpdateTime s) 250); [lia|].
  rewrite Hc. destruct (updater JSON_parse now (chatHistory u, s)) as [h1 s1].
  by destruct (lastTokenCount s1 =? 0).
Qed.

(** After an effective flush, a second flush at the same instant is
    refused. *)
Lemma flushUpdates_twice now u s :
  250 <= now - lastUpdateTime s -> capturedConfirmationOptions s = None ->
  flushUpdates JSON_parse now (flushUpdates JSON_parse now (u, s))
  = flushUpdates JSON_parse now (u, s).
Proof.
  intros Ht Hc. pose proof (flushUpdates_stamp now u s Ht Hc) as Hstamp.
  destruct (flushUpdates JSON_parse now (u, s)) as [u1 s1]. simpl in Hstamp.
  apply flushUpdates_refused. left. lia.
Qed.

End Flush.

(** ** Facts on the headless conversion *)

Lemma pushMessage_app messages entry :
  pushMessage messages entry = messages ++ pushMessage [] entry.
Proof.
  unfold pushMessage.
  destruct (ChatEntry.type entry); simpl; try done.
  - destruct (ChatEntry.toolCall entry); simpl; [done|by rewrite app_nil_r].
  - by rewrite app_nil_r.
Qed.

Lemma foldl_pushMessage messages entries :
  foldl pushMessage messages entries
  = messages ++ concat ((pushMessage []) <$> entries).
Proof.
  revert messages. induction entries as [|e r IH]; intros messages; simpl.
  - by rewrite app_nil_r.
  - rewrite IH, (pushMessage_app messages e). by rewrite <- app_assoc.
Qed.

Lemma pushMessage_single entry :
  if producesLine entry
  then exists m, pushMessage [] entry = [m] /\ role m = ChatEntry.type entry
  else pushMessage [] entry = [].
Proof.
  unfold producesLine, pushMessage.
  destruct (ChatEntry.type entry) eqn:Hty; simpl; eauto.
  destruct (ChatEntry.toolCall entry) as [tc|]; simpl; eauto.
Qed.

(** ** Reachable states *)

Lemma reachable_inv JSON_parse a : reachable JSON_parse a -> appInv a.
Proof. intros (m & t0 & evs & ->). apply run_inv, mount_inv. Qed.

(** A stored tool-call entry of a reachable state is not in progress. *)
Lemma reachable_tool_call_idle JSON_parse a i entry :
  reachable JSON_parse a ->
  chatHistory (ui a) !! i = Some entry ->
  ChatEntry.type entry = ty_tool_call ->
  ChatEntry.streaming entry = false.
Proof.
  intros Hr Hi Hty. apply reachable_inv, appInv_ui in Hr.
  destruct Hr as (_ & Hassist & _).
  pose proof (Forall_lookup_1 _ _ _ _ Hassist Hi) as H. simpl in H.
  destruct (ChatEntry.streaming entry); [|done].
  specialize (H eq_refl). congruence.
Qed.

(** ** Streams of content chunks *)

Section ContentStream.

Variable JSON_parse : jsstring -> option ToolArgs.
Variable first : ChatEntry.t.
Hypothesis first_idle : ChatEntry.streaming first = false.

Lemma flushUpdates_contentInv now received us :
  contentInv first received us ->
  contentInv first received (flushUpdates JSON_parse now us).
Proof.
  destruct us as [u s]. intros (Hconf & Hcalls & Hres & Hlog).
  simpl in *. unfold flushUpdates.
  destruct (now - lastUpdateTime s <? 250); [by split_and!|].
  rewrite Hconf. unfold updater, flushContent, flushToolCalls, flushToolResults.
  destruct Hlog as [(Hse & Hh & Hacc) | ([se Hse] & c & t & Hc & Hh & Hacc)].
  - rewrite Hse, Hh. destruct (accumulatedContent s) as [|x acc] eqn:Ha.
    + rewrite Hcalls, Hres. simpl. rewrite Hcalls, Hres.
      destruct (lastTokenCount s =? 0); split_and!; simpl; try done;
        left; by rewrite ?Hse, ?Ha.
    + simpl. rewrite Hcalls, Hres. simpl.
      destruct (lastTokenCount s =? 0); split_and!; simpl; try done;
        right; (split; [by eexists|]);
        exists received, now; subst received;
        by rewrite app_nil_r.
  - rewrite Hse, Hh. destruct (accumulatedContent s) as [|x acc] eqn:Ha.
    + rewrite Hcalls, Hres. simpl. rewrite Hcalls, Hres.
      destruct (lastTokenCount s =? 0); split_and!; simpl; try done;
        right; (split; [by rewrite Hse; eexists|]);
        exists c, t; by rewrite Ha.
    + simpl. rewrite first_idle. simpl. rewrite Hcalls, Hres. simpl.
      destruct (lastTokenCount s =? 0); split_and!; simpl; try done;
        right; (split; [by eexists|]);
        exists (c ++ x :: acc), t; rewrite app_nil_r;
        (split_and!; [by destruct c|done|done]).
Qed.

Lemma onChunk_contentInv now chunk received us :
  Chunk.type chunk = ch_content ->
  contentInv first received us ->
  contentInv first (received ++ payload chunk)
             (onChunk JSON_parse now chunk us).
Proof.
  destruct us as [u s]. intros Hty (Hconf & Hcalls & Hres & Hlog).
  unfold onChunk. rewrite Hty. apply flushUpdates_contentInv.
  unfold payload. simpl in *.
  destruct (truthy (Chunk.content chunk)).
  - split_and!; simpl; try done.
    destruct Hlog as [(Hse & Hh & Hacc) | (Hse & c & t & Hc & Hh & Hacc)].
    + left. by rewrite Hacc.
    + right. split; [done|]. exists c, t. split_and!; [done..|].
      by rewrite app_assoc, Hacc.
  - rewrite app_nil_r. by split_and!.
Qed.

Lemma run_contentInv (chunks : list (Z * Chunk.t)) received u s :
  Forall (fun tc => Chunk.type tc.2 = ch_content) chunks ->
  contentInv first received (u, s) ->
  exists u' s',
    run JSON_parse (mkApp u (Some s)) (uncurry ChunkArrived <$> chunks)
    = mkApp u' (Some s') /\
    contentInv first (received ++ concat ((fun tc => payload tc.2) <$> chunks))
               (u', s').
Proof.
  revert received u s.
  induction chunks as [|[t c] chunks IH]; intros received u s Hall Hinv.
  - exists u, s. simpl. by rewrite app_nil_r.
  - apply Forall_cons in Hall as [Hc Hall]. simpl in Hc.
    pose proof (onChunk_contentInv t c received (u, s) Hc Hinv) as H1.
    rewrite fmap_cons.
    change (run JSON_parse (mkApp u (Some s))
                (uncurry ChunkArrived (t, c) :: (uncurry ChunkArrived <$> chunks)))
      with (run JSON_parse
                (let '(u1, s1) := onChunk JSON_parse t c (u, s) in
                 mkApp u1 (Some s1))
                (uncurry ChunkArrived <$> chunks)).
    destruct (onChunk JSON_parse t c (u, s)) as [u1 s1].
    destruct (IH _ u1 s1 Hall H1) as (u' & s' & Hrun & Hinv').
    exists u', s'. split; [exact Hrun|].
    rewrite fmap_cons. simpl concat. by rewrite app_assoc.
Qed.

(** The ending of such a stream when its final flush is carried out. *)
Lemma onExhausted_contentInv now received u s :
  contentInv first received (u, s) ->
  250 <= now - lastUpdateTime s ->
  chatHistory (onExhausted JSON_parse now (u, s))
  = match received with
    | [] => [first]
    | _ :: _ =>
        [first;
         streamed received
                  (match chatHistory u with
                   | [_; e] => ChatEntry.timestamp e
                   | _ => now
                   end) false]
    end.
Proof.
  intros (Hconf & Hcalls & Hres & Hlog) Ht. simpl in *.
  unfold onExhausted, flushUpdates.
  destruct (Z.ltb_spec (now - lastUpdateTime s) 250); [lia|].
  rewrite Hconf. unfold updater, flushContent, flushToolCalls, flushToolResults.
  destruct Hlog as [(Hse & Hh & Hacc) | ([se Hse] & c & t & Hc & Hh & Hacc)].
  - rewrite Hse, Hh, Hacc. destruct received as [|x acc].
    + rewrite Hcalls, Hres. simpl. rewrite Hse.
      by destruct (lastTokenCount s =? 0).
    + simpl. rewrite Hcalls, Hres. simpl.
      destruct (lastTokenCount s =? 0); simpl; by rewrite first_idle.
  - rewrite Hse, Hh. destruct (accumulatedContent s) as [|x acc] eqn:Ha.
    + rewrite Hcalls, Hres. simpl. rewrite Hse.
      rewrite app_nil_r in Hacc. subst c.
      destruct (lastTokenCount s =? 0); simpl; rewrite first_idle;
        (destruct received; [done|reflexivity]).
    + simpl. rewrite first_idle. simpl. rewrite Hcalls, Hres. simpl.
      destruct (lastTokenCount s =? 0); simpl; rewrite first_idle, Hacc;
        (destruct received; [by destruct c|reflexivity]).
Qed.

End ContentStream.

(** ** Throttle, dialog and endings *)

Section Supporting.

Variable JSON_parse : jsstring -> option ToolArgs.

Lemma run_snoc a evs ev :
  run JSON_parse a (evs ++ [ev]) = step JSON_parse (run JSON_parse a evs) ev.
Proof. unfold run. by rewrite foldl_app. Qed.

(** A stream of content chunks whose final flush is carried out ends with
    one assistant entry, no longer in progress, that holds the payloads in
    arrival order. *)
Lemma content_stream_committed message t0 (chunks : list (Z * Chunk.t)) now s :
  message <> [] ->
  Forall (fun tc => Chunk.type tc.2 = ch_content) chunks ->
  session (run JSON_parse (mount (Some message) t0)
               (uncurry ChunkArrived <$> chunks)) = Some s ->
  250 <= now - lastUpdateTime s ->
  concat ((fun tc => payload tc.2) <$> chunks) <> [] ->
  exists t,
    chatHistory
      (ui (run JSON_parse (mount (Some message) t0)
               ((uncurry ChunkArrived <$> chunks) ++ [Exhausted now])))
    = [ChatEntry.mk ty_user message t0 None None None None;
       streamed (concat ((fun tc => payload tc.2) <$> chunks)) t false].
Proof.
  intros Hmsg Hall Hs Ht Hne. rewrite run_snoc.
  set (first := ChatEntry.mk ty_user message t0 None None None None).
  set (u0 := setIsStreaming true
               (setIsProcessing true
                  (setChatHistory (fun _ => [first]) initialUI))).
  set (s0 := mkSession None [] 0 None [] t0 None).
  assert (Hm : mount (Some message) t0 = mkApp u0 (Some s0))
    by (unfold mount; by destruct message).
  rewrite Hm in *.
  destruct (run_contentInv JSON_parse first eq_refl chunks [] u0 s0 Hall)
    as (u' & s' & Hrun & Hinv).
  { split_and!; [done..|]. left. by split_and!. }
  rewrite Hrun in *. simpl in Hs. injection Hs as ->.
  unfold step. simpl session. simpl ui.
  rewrite (onExhausted_contentInv JSON_parse first eq_refl now _ _ _ Hinv Ht).
  simpl app.
  destruct (concat ((fun tc => payload tc.2) <$> chunks)); [done|].
  eauto.
Qed.

(** A flush that commits comes at least 250 ms after the previous one (or
    after the start), and becomes the previous one. *)
Lemma flushUpdates_spacing now u s :
  observed (flushUpdates JSON_parse now (u, s)).1 <> observed u ->
  250 <= now - lastUpdateTime s /\
  lastUpdateTime (flushUpdates JSON_parse now (u, s)).2 = now.
Proof.
  unfold flushUpdates.
  destruct (Z.ltb_spec (now - lastUpdateTime s) 250); [done|].
  destruct (capturedConfirmationOptions s); [done|].
  destruct (updater JSON_parse now (chatHistory u, s)) as [h1 s1].
  by destruct (lastTokenCount s1 =? 0).
Qed.

(** No handler changes the binding that the closures captured. *)
Lemma flushUpdates_captured now u s :
  capturedConfirmationOptions (flushUpdates JSON_parse now (u, s)).2
  = capturedConfirmationOptions s.
Proof.
  unfold flushUpdates.
  destruct (now - lastUpdateTime s <? 250); [done|].
  destruct (capturedConfirmationOptions s) eqn:Hc; [done|].
  unfold updater, flushContent, flushToolCalls, flushToolResults.
  destruct (accumulatedContent s), (streamingEntry s), (pendingToolCalls s),
    (pendingToolResults s); simpl;
    repeat match goal with
           | |- context [if ?c then _ else _] => destruct c
           end; simpl; by rewrite ?Hc.
Qed.

Lemma onChunk_captured now chunk u s :
  capturedConfirmationOptions (onChunk JSON_parse now chunk (u, s)).2
  = capturedConfirmationOptions s.
Proof.
  unfold onChunk.
  destruct (Chunk.type chunk);
    repeat match goal with
           | |- context [truthy ?x] => destruct (truthy x)
           | |- context [match ?x with Some _ => _ | None => _ end] =>
               destruct x
           end;
    rewrite ?flushUpdates_captured; try done.
  - pose proof (flushUpdates_captured now u s) as H1.
    destruct (flushUpdates JSON_parse now (u, s)) as [u1 s1].
    by rewrite flushUpdates_captured.
  - pose proof (flushUpdates_captured now u s) as H1.
    destruct (flushUpdates JSON_parse now (u, s)) as [u1 s1].
    by rewrite flushUpdates_captured.
Qed.

Lemma step_captured a ev s' :
  (forall s, session a = Some s -> capturedConfirmationOptions s = None) ->
  session (step JSON_parse a ev) = Some s' ->
  capturedConfirmationOptions s' = None.
Proof.
  intros Ha. unfold step.
  destruct ev as [now chunk|now|now error|options|dontAskAgain|feedback];
    destruct (session a) as [s|] eqn:Hs;
    try (simpl; rewrite ?Hs; intros [= <-]; by apply Ha);
    try (rewrite Hs; done).
  pose proof (onChunk_captured now chunk (ui a) s) as H1.
  destruct (onChunk JSON_parse now chunk (ui a, s)) as [u1 s1].
  simpl in *. intros [= <-]. rewrite H1. by apply Ha.
Qed.

(** In every reachable state the guard of [flushUpdates] sees no dialog:
    what it tests is the binding of the first render, where the state is
    still null. *)
Lemma guard_never_fires a s :
  reachable JSON_parse a -> session a = Some s ->
  capturedConfirmationOptions s = None.
Proof.
  intros (m & t0 & evs & ->). revert s.
  induction evs as [|ev evs IH] using rev_ind; intros s.
  - unfold run, mount. simpl. destruct (truthy m); [|done]. by intros [= <-].
  - rewrite run_snoc. by apply step_captured.
Qed.

(** The catch block appends the error entry and nothing else, and clears
    the flags. *)
Lemma onThrown_appends now error u s :
  chatHistory (onThrown now error (u, s))
  = chatHistory u
    ++ [ChatEntry.mk ty_assistant (lit "Error: " ++ errorMessage error) now
                     None None None None] /\
  isStreaming (onThrown now error (u, s)) = false /\
  isProcessing (onThrown now error (u, s)) = false /\
  processingStartTime (onThrown now error (u, s)) = 0.
Proof. done. Qed.


End Supporting.

(** The first scenario of the specification, with chunks far enough apart
    for the flushes to pass the throttle. *)
Lemma scenario_hello :
  chatHistory
    (ui (run Ex.parse (mount (Some (lit "hello")) 0)
             [ChunkArrived 300 (Ex.contentChunk "Hi");
              ChunkArrived 600 (Ex.contentChunk " there");
              ChunkArrived 900 Ex.doneChunk;
              Exhausted 1200]))
  = [Ex.userEntry "hello" 0; streamed (lit "Hi there") 300 false].
Proof. vm_compute. reflexivity. Qed.

(** The second scenario: a bash call is announced and shown, the dialog
    opens and the user rejects. *)
Lemma scenario_reject :
  let after :=
    run Ex.parse (mount (Some (lit "delete file.txt")) 0)
        [ChunkArrived 300
           (Chunk.mk ch_tool_calls None None (Some [Ex.rmCall]) None None);
         ConfirmationRequested Ex.dialog;
         Rejected (Some (lit "not yet"))] in
  chatHistory (ui after)
  = [Ex.userEntry "delete file.txt" 0;
     ChatEntry.mk ty_tool_call (lit "Running command: rm file.txt") 300
                  None None (Some Ex.rmCall) None] /\
  isProcessing (ui after) = false /\
  isStreaming (ui after) = false /\
  tokenCount (ui after) = 0 /\
  confirmationOptions (ui after) = None.
Proof. vm_compute. auto. Qed.

(** With the dialog open, a content chunk is still committed by the next
    flush that passes the throttle. *)
Lemma content_flushed_while_dialog_is_open :
  chatHistory
    (ui (run Ex.parse (mount (Some (lit "hello")) 0)
             [ConfirmationRequested Ex.dialog;
              ChunkArrived 300 (Ex.contentChunk "Hi")]))
  = [Ex.userEntry "hello" 0; streamed (lit "Hi") 300 true].
Proof. vm_compute. reflexivity. Qed.


Ltac flush_at Hflush Hconf :=
  match goal with
  | |- context [flushUpdates ?p ?n (?u, ?x)] =>
      let Hx := fresh in
      pose proof (Hflush x eq_refl eq_refl Hconf) as Hx;
      destruct (flushUpdates p n (u, x)); exact Hx
  end.

(** ** The claims *)

(** C1, on the code: two content chunks arrive 10 ms and 20 ms after the
    start and the stream ends at 30 ms.  Every flush, the final one included,
    is refused by the 250 ms throttle, so the log holds the user's entry only:
    no assistant entry carries "Hi there". *)
Theorem content_lost_when_final_flush_is_throttled :
  chatHistory
    (ui (run Ex.parse (mount (Some (lit "hello")) 0)
             [ChunkArrived 10 (Ex.contentChunk "Hi");
              ChunkArrived 20 (Ex.contentChunk " there");
              Exhausted 30]))
  = [Ex.userEntry "hello" 0].
Proof. vm_compute. reflexivity. Qed.

(** C2, on the code: a flush at 300 ms shows "A"; "B" arrives at 400 ms and
    a done chunk at 410 ms.  The done chunk commits nothing: the log is the
    one of the flush at 300 ms, "B" stays in the buffer and the time of the
    last flush is still 300. *)
Theorem done_does_not_force_a_flush :
  let before :=
    run Ex.parse (mount (Some (lit "hello")) 0)
        [ChunkArrived 300 (Ex.contentChunk "A");
         ChunkArrived 400 (Ex.contentChunk "B")] in
  let after := step Ex.parse before (ChunkArrived 410 Ex.doneChunk) in
  observed (ui after) = observed (ui before) /\
  chatHistory (ui after)
  = [Ex.userEntry "hello" 0;
     ChatEntry.mk ty_assistant (lit "A") 300 (Some true) None None None] /\
  (accumulatedContent <$> session after) = Some (lit "B") /\
  (lastUpdateTime <$> session after) = Some 300.
Proof. vm_compute. auto. Qed.

(** C3, on the code: while the confirmation dialog is open, a completion
    chunk appends its assistant entry to the log. *)
Theorem completion_appends_while_confirmation_is_pending :
  let before :=
    run Ex.parse (mount (Some (lit "hello")) 0)
        [ConfirmationRequested Ex.dialog] in
  let after := step Ex.parse before (ChunkArrived 10 (Ex.completionChunk "Done")) in
  confirmationOptions (ui before) = Some Ex.dialog /\
  confirmationOptions (ui after) = Some Ex.dialog /\
  chatHistory (ui before) = [Ex.userEntry "hello" 0] /\
  chatHistory (ui after)
  = [Ex.userEntry "hello" 0;
     ChatEntry.mk ty_assistant (lit "Done") 10 None None None None].
Proof. vm_compute. auto. Qed.

(** C4: in every state the log has taken, from the first render on and
    through any sequence of chunks, stream endings and confirmation events,
    at most one entry is in progress. *)
Theorem at_most_one_entry_in_progress JSON_parse initialMessage t0 evs :
  Forall atMostOneStreaming
         (observed (ui (run JSON_parse (mount initialMessage t0) evs))) /\
  atMostOneStreaming
    (chatHistory (ui (run JSON_parse (mount initialMessage t0) evs))).
Proof.
  pose proof (run_inv JSON_parse _ evs (mount_inv initialMessage t0)) as H.
  apply appInv_ui in H. destruct H as (? & _ & ?). by split.
Qed.

(** C5, on the code: a tool call is announced at 300 ms and shown, its
    result arrives at 310 ms, a done chunk at 320 ms, and the stream ends at
    330 ms.  The three flushes after the result, the final one included, are
    refused by the 250 ms throttle: the result is never committed, the entry
    at index 1 is still the tool-call entry, and no entry of the log is a
    tool result. *)
Theorem tool_result_lost_when_final_flush_is_throttled :
  let after :=
    run Ex.parse (mount (Some (lit "list files")) 0)
        [ChunkArrived 300 Ex.toolCallsChunk;
         ChunkArrived 310 (Ex.toolResultChunk Ex.okResult);
         ChunkArrived 320 Ex.doneChunk;
         Exhausted 330] in
  chatHistory (ui after)
  = [Ex.userEntry "list files" 0; toolCallEntry Ex.parse 300 Ex.lsCall] /\
  ChatEntry.type (toolCallEntry Ex.parse 300 Ex.lsCall) = ty_tool_call /\
  Forall (fun e => ChatEntry.type e <> ty_tool_result)
         (chatHistory (ui after)) /\
  session after = None.
Proof.
  vm_compute. split_and!; try reflexivity.
  repeat (apply Forall_cons_2; [discriminate|]). apply Forall_nil_2.
Qed.

(** C6, on the code: a flush at 300 ms shows "Hi" in an in-progress entry and
    the stream throws at 320 ms.  The handler appends the error entry and
    clears the flags of the component, and ends with the entry "Hi" still
    marked in progress. *)
Theorem error_leaves_the_entry_in_progress :
  let after :=
    run Ex.parse (mount (Some (lit "hello")) 0)
        [ChunkArrived 300 (Ex.contentChunk "Hi");
         Threw 320 (ErrorObject (lit "boom"))] in
  chatHistory (ui after)
  = [Ex.userEntry "hello" 0;
     ChatEntry.mk ty_assistant (lit "Hi") 300 (Some true) None None None;
     ChatEntry.mk ty_assistant (lit "Error: boom") 320 None None None None] /\
  session after = None /\
  isStreaming (ui after) = false /\
  isProcessing (ui after) = false.
Proof. vm_compute. auto. Qed.

(** C7 as stated fails on the code at two inputs: a successful result with
    the empty output is shown as the success marker, not as its (empty)
    output, and a failed result with the empty error message is shown with
    the text "Unknown error" after the failure marker. *)
Lemma preview_as_stated_fails :
  let entry := toolCallEntry Ex.parse 0 Ex.lsCall in
  (find (matches entry) [(Ex.lsCall, Ex.emptyResult)]
   = Some (Ex.lsCall, Ex.emptyResult) /\
   ToolResult.success Ex.emptyResult = true /\
   ToolResult.output Ex.emptyResult = Some [] /\
   (length ([] : jsstring) <= 200)%nat /\
   ChatEntry.content (applyResults [(Ex.lsCall, Ex.emptyResult)] entry)
   <> []) /\
  (find (matches entry) [(Ex.lsCall, Ex.failedEmpty)]
   = Some (Ex.lsCall, Ex.failedEmpty) /\
   ToolResult.success Ex.failedEmpty = false /\
   ToolResult.error Ex.failedEmpty = Some [] /\
   ChatEntry.content (applyResults [(Ex.lsCall, Ex.failedEmpty)] entry)
   <> failurePrefix ++ []).
Proof. vm_compute. split_and!; try reflexivity; try lia; discriminate. Qed.

(** C7, amended: the entry converted for a matching result shows, for a
    success, the first 200 code units of the output followed by "..." when
    the output is longer than 200, and the whole output when it is not empty
    and at most 200 long; for a failure it shows the failure marker followed
    by the error message when that is not empty, and by "Unknown error" when
    it is empty or absent. *)
Theorem tool_result_preview results entry r :
  ChatEntry.streaming entry = false ->
  find (matches entry) results = Some r ->
  ChatEntry.type (applyResults results entry) = ty_tool_result /\
  (ToolResult.success r.2 = true ->
   forall output, ToolResult.output r.2 = Some output ->
     ((200 < length output)%nat ->
      ChatEntry.content (applyResults results entry)
      = take 200 output ++ lit "...") /\
     ((0 < length output <= 200)%nat ->
      ChatEntry.content (applyResults results entry) = output)) /\
  (ToolResult.success r.2 = false ->
   (forall message, ToolResult.error r.2 = Some message -> message <> [] ->
      ChatEntry.content (applyResults results entry)
      = failurePrefix ++ message) /\
   (ToolResult.error r.2 = None \/ ToolResult.error r.2 = Some [] ->
      ChatEntry.content (applyResults results entry)
      = failurePrefix ++ lit "Unknown error")).
Proof.
  intros Hidle Hfind. unfold applyResults. rewrite Hidle, Hfind. simpl.
  split_and!; [done| |].
  - intros Hok output Hout. unfold resultContent. rewrite Hok, Hout. simpl.
    split; intros Hlen.
    + destruct (Z.ltb_spec 200 (Z.of_nat (length output))); [done|lia].
    + destruct (Z.ltb_spec 200 (Z.of_nat (length output))); [lia|].
      destruct output; [simpl in Hlen; lia|done].
  - intros Hko. unfold resultContent. rewrite Hko. split.
    + intros message Hmsg Hne. rewrite Hmsg. by destruct message.
    + by intros [-> | ->].
Qed.

Lemma tool_result_preview_witness :
  let entry := toolCallEntry Ex.parse 0 Ex.lsCall in
  let results := [(Ex.lsCall, Ex.okResult)] in
  ChatEntry.streaming entry = false /\
  find (matches entry) results = Some (Ex.lsCall, Ex.okResult) /\
  ChatEntry.type (applyResults results entry) = ty_tool_result /\
  ChatEntry.content (applyResults results entry) = lit "ok".
Proof.
  pose proof (tool_result_preview [(Ex.lsCall, Ex.okResult)]
                                  (toolCallEntry Ex.parse 0 Ex.lsCall)
                                  (Ex.lsCall, Ex.okResult)
                                  eq_refl eq_refl) as (Hty & Hok & _).
  split_and!; [reflexivity|reflexivity|exact Hty|].
  apply (Hok eq_refl (lit "ok") eq_refl). simpl. lia.
Defined.

(** C8: the rejection handler leaves the component idle: not processing, not
    streaming, token count 0, processing time 0 and start time 0, with the
    dialog closed and the rejection passed to the confirmation service. *)
Theorem rejection_resets_processing_flags JSON_parse a feedback :
  isProcessing (ui (step JSON_parse a (Rejected feedback))) = false /\
  isStreaming (ui (step JSON_parse a (Rejected feedback))) = false /\
  tokenCount (ui (step JSON_parse a (Rejected feedback))) = 0 /\
  processingTime (ui (step JSON_parse a (Rejected feedback))) = 0 /\
  processingStartTime (ui (step JSON_parse a (Rejected feedback))) = 0 /\
  confirmationOptions (ui (step JSON_parse a (Rejected feedback))) = None /\
  serviceCalls (ui (step JSON_parse a (Rejected feedback)))
  = serviceCalls (ui a) ++ [rejectOperation feedback] /\
  chatHistory (ui (step JSON_parse a (Rejected feedback)))
  = chatHistory (ui a).
Proof. unfold step. by destruct (session a). Qed.

(** C9: the entry converted for a successful result whose output is empty
    or absent shows the success marker. *)
Theorem empty_output_shows_success_marker results entry r :
  ChatEntry.streaming entry = false ->
  find (matches entry) results = Some r ->
  ToolResult.success r.2 = true ->
  ToolResult.output r.2 = None \/ ToolResult.output r.2 = Some [] ->
  ChatEntry.type (applyResults results entry) = ty_tool_result /\
  ChatEntry.content (applyResults results entry) = successMarker.
Proof.
  intros Hidle Hfind Hok Hout. unfold applyResults. rewrite Hidle, Hfind.
  simpl. split; [done|]. unfold resultContent. rewrite Hok.
  by destruct Hout as [-> | ->].
Qed.

Lemma empty_output_shows_success_marker_witness :
  let entry := toolCallEntry Ex.parse 0 Ex.lsCall in
  let results := [(Ex.lsCall, Ex.emptyResult)] in
  ChatEntry.type (applyResults results entry) = ty_tool_result /\
  ChatEntry.content (applyResults results entry) = successMarker.
Proof.
  apply (empty_output_shows_success_marker
           [(Ex.lsCall, Ex.emptyResult)]
           (toolCallEntry Ex.parse 0 Ex.lsCall)
           (Ex.lsCall, Ex.emptyResult)).
  - reflexivity.
  - reflexivity.
  - reflexivity.
  - right. reflexivity.
Defined.

(** C10: when the agent returns, headless mode prints one line per entry
    that is a user entry, an assistant entry or a tool-result entry with a
    tool call, in the order of the entries and with the matching role, and
    nothing for the other entries. *)
Theorem headless_prints_one_line_per_message JSON_stringify chatEntries :
  length (processPromptHeadless JSON_stringify (Returned chatEntries)).1
  = length (List.filter producesLine chatEntries) /\
  (exists messages,
      (processPromptHeadless JSON_stringify (Returned chatEntries)).1
      = JSON_stringify <$> messages /\
      role <$> messages
      = ChatEntry.type <$> List.filter producesLine chatEntries) /\
  (processPromptHeadless JSON_stringify (Returned chatEntries)).2 = None.
Proof.
  simpl. unfold convertEntries. rewrite foldl_pushMessage. simpl.
  assert (H : role <$> concat (pushMessage [] <$> chatEntries)
              = ChatEntry.type <$> List.filter producesLine chatEntries).
  { induction chatEntries as [|e r IH]; [done|].
    rewrite fmap_cons. simpl concat. rewrite fmap_app, IH.
    pose proof (pushMessage_single e) as He. simpl.
    destruct (producesLine e).
    - destruct He as (m & -> & Hm). simpl. by rewrite Hm.
    - by rewrite He. }
  split_and!; [|eauto|done].
  rewrite length_fmap.
  rewrite <- (length_fmap role), H. by rewrite length_fmap.
Qed.

(** * Further properties *)

(** ** The log grows or is replaced in place *)

Lemma sameSlot_refl e : sameSlot e e.
Proof.
  unfold sameSlot. split_and!; auto. intros _. exists []. by rewrite app_nil_r.
Qed.

Lemma sameSlot_trans e1 e2 e3 : sameSlot e1 e2 -> sameSlot e2 e3 -> sameSlot e1 e3.
Proof.
  intros (Ht1 & Hc1 & Hy1 & Hx1 & Hf1) (Ht2 & Hc2 & Hy2 & Hx2 & Hf2).
  unfold sameSlot. split_and!.
  - congruence.
  - congruence.
  - destruct Hy1 as [Hy1|[Hy1 Hy1']], Hy2 as [Hy2|[Hy2 Hy2']].
    + left. congruence.
    + right. split; congruence.
    + right. split; congruence.
    + congruence.
  - intros Hty.
    assert (Hty12 : ChatEntry.type e2 = ChatEntry.type e1).
    { destruct Hy1 as [Hy1|[Hy1 Hy1']]; [done|].
      destruct Hy2 as [Hy2|[Hy2 Hy2']]; congruence. }
    destruct (Hx1 Hty12) as [m1 Hm1].
    destruct (Hx2 ltac:(congruence)) as [m2 Hm2].
    exists (m1 ++ m2). by rewrite Hm2, Hm1, app_assoc.
  - intros Hs Hn. specialize (Hf1 Hs Hn). subst e2. by apply Hf2.
Qed.

Lemma evolves_refl h : evolves h h.
Proof. intros i e Hi. exists e. split; [done|apply sameSlot_refl]. Qed.

Lemma evolves_trans h1 h2 h3 : evolves h1 h2 -> evolves h2 h3 -> evolves h1 h3.
Proof.
  intros H12 H23 i e Hi.
  destruct (H12 i e Hi) as (e2 & Hi2 & Hs2).
  destruct (H23 i e2 Hi2) as (e3 & Hi3 & Hs3).
  exists e3. split; [done|]. by eapply sameSlot_trans.
Qed.

Lemma evolves_app h l : evolves h (h ++ l).
Proof.
  intros i e Hi. exists e. split; [by apply lookup_app_l_Some|apply sameSlot_refl].
Qed.

Lemma evolves_length h h' : evolves h h' -> (length h <= length h')%nat.
Proof.
  intros He. destruct (decide (length h = 0)%nat) as [->|Hne]; [lia|].
  destruct (lookup_lt_is_Some_2 h (length h - 1)) as [e Hi]; [lia|].
  destruct (He _ _ Hi) as (e' & Hi' & _).
  apply lookup_lt_Some in Hi'. lia.
Qed.

Lemma evolves_fmap (f : ChatEntry.t -> ChatEntry.t) h :
  (forall e, sameSlot e (f e)) -> evolves h (f <$> h).
Proof.
  intros Hf i e Hi. exists (f e). split; [|apply Hf].
  by rewrite list_lookup_fmap, Hi.
Qed.

Lemma evolves_update_streaming (f : ChatEntry.t -> ChatEntry.t) h :
  (forall e, ChatEntry.streaming e = true -> sameSlot e (f e)) ->
  evolves h (updateAt (findIndex ChatEntry.streaming h) f h).
Proof.
  intros Hf i e Hi. unfold updateAt.
  destruct (Z.leb_spec 0 (findIndex ChatEntry.streaming h)) as [Hge|];
    [|exists e; split; [done|apply sameSlot_refl]].
  destruct (findIndex_found _ _ Hge) as (x & Hx & Hpx).
  rewrite list_lookup_alter. case_decide as Hd.
  - subst i. rewrite Hi. simpl. exists (f e). split; [done|].
    apply Hf. congruence.
  - exists e. split; [done|apply sameSlot_refl].
Qed.

Lemma find_holds {A} (p : A -> bool) (l : list A) y :
  find p l = Some y -> p y = true.
Proof.
  induction l as [|x r IH]; simpl; [done|].
  destruct (p x) eqn:Hp; [by intros [= <-]|done].
Qed.

Lemma applyResults_sameSlot results e : sameSlot e (applyResults results e).
Proof.
  unfold applyResults. destruct (ChatEntry.streaming e) eqn:Hs.
  - unfold sameSlot. simpl. split_and!; auto.
    + intros _. exists []. by rewrite app_nil_r.
    + congruence.
  - destruct (find (matches e) results) as [r|] eqn:Hr; [|apply sameSlot_refl].
    apply find_holds in Hr. unfold matches in Hr.
    destruct (ChatEntry.type e) eqn:Hty; try done.
    unfold sameSlot. simpl. rewrite Hty. split_and!; auto; done.
Qed.

Lemma clear_sameSlot e :
  sameSlot e (if ChatEntry.streaming e then ChatEntry.stop_streaming e else e).
Proof.
  destruct (ChatEntry.streaming e) eqn:Hs; [|apply sameSlot_refl].
  unfold sameSlot. simpl. split_and!; auto.
  - intros _. exists []. by rewrite app_nil_r.
  - congruence.
Qed.

Section Growth.

Variable JSON_parse : jsstring -> option ToolArgs.

Lemma updater_evolves now h s : evolves h (updater JSON_parse now (h, s)).1.
Proof.
  unfold updater.
  assert (H1 : evolves h (flushContent now (h, s)).1).
  { unfold flushContent. destruct (accumulatedContent s); [apply evolves_refl|].
    destruct (streamingEntry s); simpl.
    - apply evolves_update_streaming. intros e He.
      unfold sameSlot. simpl. split_and!; auto; [by eexists|congruence].
    - apply evolves_app. }
  destruct (flushContent now (h, s)) as [h1 s1]. simpl in H1.
  assert (H2 : evolves h1 (flushToolCalls JSON_parse now (h1, s1)).1).
  { unfold flushToolCalls. destruct (pendingToolCalls s1); [|apply evolves_refl].
    simpl. eapply evolves_trans; [|apply evolves_app].
    apply evolves_update_streaming. intros e He.
    unfold sameSlot. simpl. split_and!; auto; [|congruence].
    intros _. exists []. by rewrite app_nil_r. }
  destruct (flushToolCalls JSON_parse now (h1, s1)) as [h2 s2]. simpl in H2.
  assert (H3 : evolves h2 (flushToolResults (h2, s2)).1).
  { unfold flushToolResults.
    destruct (0 <? Z.of_nat (length (pendingToolResults s2)));
      [|apply evolves_refl].
    simpl. apply evolves_fmap, applyResults_sameSlot. }
  eauto using evolves_trans.
Qed.

End Growth.

(** Every handler preserves a property of the component that survives the
    updates of [chatHistory] into an evolved log and does not depend on the
    other state. *)
Section Preserved.

Variable JSON_parse : jsstring -> option ToolArgs.
Variable Q : UI -> Prop.
Hypothesis Q_set :
  forall u f, Q u -> evolves (chatHistory u) (f (chatHistory u)) ->
              Q (setChatHistory f u).
Hypothesis Q_same :
  forall u u', chatHistory u' = chatHistory u -> observed u' = observed u ->
               Q u -> Q u'.

Lemma flushUpdates_preserves now u s :
  Q u -> Q (flushUpdates JSON_parse now (u, s)).1.
Proof.
  intros HQ. unfold flushUpdates.
  destruct (now - lastUpdateTime s <? 250); [done|].
  destruct (capturedConfirmationOptions s); [done|].
  pose proof (updater_evolves JSON_parse now (chatHistory u) s) as He.
  destruct (updater JSON_parse now (chatHistory u, s)) as [h1 s1]. simpl in He.
  assert (H1 : Q (setChatHistory (fun _ => h1) u)) by by apply Q_set.
  destruct (lastTokenCount s1 =? 0); simpl; [done|].
  by eapply Q_same; [| |exact H1].
Qed.

Lemma onChunk_preserves now chunk u s :
  Q u -> Q (onChunk JSON_parse now chunk (u, s)).1.
Proof.
  intros HQ. unfold onChunk.
  destruct (Chunk.type chunk);
    repeat match goal with
           | |- context [truthy ?x] => destruct (truthy x)
           | |- context [match ?x with Some _ => _ | None => _ end] =>
               destruct x
           end;
    try (by apply flushUpdates_preserves).
  - pose proof (flushUpdates_preserves now u s HQ) as H1.
    destruct (flushUpdates JSON_parse now (u, s)) as [u1 s1].
    apply flushUpdates_preserves, Q_set; [done|apply evolves_app].
  - pose proof (flushUpdates_preserves now u s HQ) as H1.
    destruct (flushUpdates JSON_parse now (u, s)) as [u1 s1].
    by apply flushUpdates_preserves.
Qed.

Lemma onExhausted_preserves now u s :
  Q u -> Q (onExhausted JSON_parse now (u, s)).
Proof.
  intros HQ. unfold onExhausted.
  pose proof (flushUpdates_preserves now u s HQ) as H1.
  destruct (flushUpdates JSON_parse now (u, s)) as [u1 s1]. simpl in H1.
  destruct (streamingEntry s1).
  - match goal with
    | |- context [setChatHistory ?f u1] =>
        apply (Q_same (setChatHistory f u1)); [done|done|]
    end.
    apply Q_set; [done|]. apply evolves_fmap, clear_sameSlot.
  - by eapply Q_same; [| |exact H1].
Qed.

Lemma onThrown_preserves now error u s :
  Q u -> Q (onThrown now error (u, s)).
Proof.
  intros HQ. unfold onThrown.
  match goal with
  | |- context [setChatHistory ?f u] =>
      apply (Q_same (setChatHistory f u)); [done|done|]
  end.
  apply Q_set; [done|apply evolves_app].
Qed.

Lemma step_preserves a ev : Q (ui a) -> Q (ui (step JSON_parse a ev)).
Proof.
  intros HQ. unfold step.
  destruct ev as [now chunk|now|now error|options|dontAskAgain|feedback];
    destruct (session a) as [s|]; try done;
    try (by eapply Q_same; [| |exact HQ]).
  - pose proof (onChunk_preserves now chunk (ui a) s HQ) as H1.
    by destruct (onChunk JSON_parse now chunk (ui a, s)).
  - by apply onExhausted_preserves.
  - by apply onThrown_preserves.
Qed.

Lemma run_preserves a evs : Q (ui a) -> Q (ui (run JSON_parse a evs)).
Proof.
  revert a. induction evs as [|ev evs IH]; intros a HQ; [done|].
  apply IH, step_preserves, HQ.
Qed.

End Preserved.

Lemma run_evolves JSON_parse a evs :
  evolves (chatHistory (ui a)) (chatHistory (ui (run JSON_parse a evs))).
Proof.
  apply (run_preserves JSON_parse
           (fun u => evolves (chatHistory (ui a)) (chatHistory u))).
  - intros u f H1 H2. simpl. by eapply evolves_trans.
  - intros u u' Hh _. by rewrite Hh.
  - apply evolves_refl.
Qed.

Lemma run_logInv JSON_parse initialMessage t0 evs :
  logInv (ui (run JSON_parse (mount initialMessage t0) evs)).
Proof.
  apply (run_preserves JSON_parse logInv).
  - intros u f [Hhead Hchain] He. split; [done|]. simpl.
    destruct (observed u) as [|h r]; [done|].
    simpl in Hhead. injection Hhead as ->. by split.
  - intros u u' Hh Ho. unfold logInv. by rewrite Hh, Ho.
  - unfold mount. destruct (truthy initialMessage); simpl.
    + split; [done|]. simpl. split; [|done]. by intros i e Hi.
    + by split.
Qed.

(** X1: through any sequence of events, an entry of the log keeps its
    index; the entry found there later has the same time stamp and tool
    call, the same type unless a tool call became a tool result, and, while
    the type is the same, a text that extends the earlier one. *)
Theorem log_grows_or_is_replaced_in_place JSON_parse a evs i e :
  chatHistory (ui a) !! i = Some e ->
  exists e',
    chatHistory (ui (run JSON_parse a evs)) !! i = Some e' /\
    ChatEntry.timestamp e' = ChatEntry.timestamp e /\
    ChatEntry.toolCall e' = ChatEntry.toolCall e /\
    (ChatEntry.type e' = ChatEntry.type e \/
     (ChatEntry.type e = ty_tool_call /\ ChatEntry.type e' = ty_tool_result)) /\
    (ChatEntry.type e' = ChatEntry.type e ->
     exists more, ChatEntry.content e' = ChatEntry.content e ++ more).
Proof.
  intros Hi. destruct (run_evolves JSON_parse a evs i e Hi)
    as (e' & Hi' & Ht & Hc & Hy & Hx & _).
  exists e'. by split_and!.
Qed.

Lemma log_grows_or_is_replaced_in_place_witness :
  let a := run Ex.parse (mount (Some (lit "hello")) 0)
               [ChunkArrived 300 (Ex.contentChunk "Hi")] in
  let evs := [ChunkArrived 600 (Ex.contentChunk " there"); Exhausted 900] in
  chatHistory (ui a) !! 1%nat = Some (streamed (lit "Hi") 300 true) /\
  exists e',
    chatHistory (ui (run Ex.parse a evs)) !! 1%nat = Some e' /\
    ChatEntry.timestamp e' = 300 /\
    ChatEntry.toolCall e' = None /\
    (ChatEntry.type e' = ty_assistant \/
     (ty_assistant = ty_tool_call /\ ChatEntry.type e' = ty_tool_result)) /\
    (ChatEntry.type e' = ty_assistant ->
     exists more, ChatEntry.content e' = lit "Hi" ++ more).
Proof.
  intros a evs. split; [reflexivity|].
  apply (log_grows_or_is_replaced_in_place
           Ex.parse a evs 1%nat (streamed (lit "Hi") 300 true)).
  reflexivity.
Defined.

(** X2: an entry that is neither in progress nor a tool call is never
    changed again, whatever events follow. *)
Theorem settled_entries_are_frozen JSON_parse a evs i e :
  chatHistory (ui a) !! i = Some e ->
  ChatEntry.streaming e = false ->
  ChatEntry.type e <> ty_tool_call ->
  chatHistory (ui (run JSON_parse a evs)) !! i = Some e.
Proof.
  intros Hi Hs Hn. destruct (run_evolves JSON_parse a evs i e Hi)
    as (e' & Hi' & _ & _ & _ & _ & Hf).
  by rewrite Hi', (Hf Hs Hn).
Qed.

Lemma settled_entries_are_frozen_witness :
  let a := mount (Some (lit "hello")) 0 in
  let evs := [ChunkArrived 300 (Ex.contentChunk "Hi");
              ChunkArrived 600 Ex.toolCallsChunk;
              ChunkArrived 900 (Ex.toolResultChunk Ex.okResult);
              Threw 1200 (ErrorObject (lit "boom"))] in
  chatHistory (ui a) !! 0%nat = Some (Ex.userEntry "hello" 0) /\
  chatHistory (ui (run Ex.parse a evs)) !! 0%nat
  = Some (Ex.userEntry "hello" 0).
Proof.
  intros a evs. split; [reflexivity|].
  apply (settled_entries_are_frozen Ex.parse a evs 0%nat
                                    (Ex.userEntry "hello" 0)).
  - reflexivity.
  - reflexivity.
  - discriminate.
Defined.

(** ** The session log *)

Lemma join_lines (l : list jsstring) :
  l <> [] -> join newline l ++ newline = concat ((fun x => x ++ newline) <$> l).
Proof.
  induction l as [|x r IH]; [done|]. intros _.
  destruct r as [|y r].
  - simpl. by rewrite app_nil_r.
  - change (join newline (x :: y :: r))
      with (x ++ newline ++ join newline (y :: r)).
    rewrite (fmap_cons _ x).
    change (concat ((x ++ newline)
                    :: ((fun x => x ++ newline) <$> (y :: r))))
      with ((x ++ newline)
            ++ concat ((fun x => x ++ newline) <$> (y :: r))).
    rewrite <- IH by done. by rewrite <- !app_assoc.
Qed.

Lemma chain_all h' r : chain (h' :: r) -> Forall (fun h => evolves h h') r.
Proof.
  revert h'. induction r as [|h r IH]; intros h'; [constructor|].
  intros [He Hc]. constructor; [done|].
  eapply Forall_impl; [exact (IH h Hc)|].
  intros x Hx. simpl in Hx. exact (evolves_trans _ _ _ Hx He).
Qed.

Lemma ascending_snoc hs h :
  ascending hs -> Forall (fun x => evolves x h) hs -> ascending (hs ++ [h]).
Proof.
  induction hs as [|x r IH]; simpl; [by split|].
  intros [Hall Hs] [Hx Hr]%Forall_cons. split; [|by apply IH].
  apply Forall_app. split; [done|]. by apply Forall_singleton.
Qed.

Lemma chain_ascending l : chain l -> ascending (reverse l).
Proof.
  induction l as [|h' r IH]; [done|]. intros Hc.
  rewrite reverse_cons. apply ascending_snoc.
  - apply IH. destruct r; [done|]. by destruct Hc.
  - apply Forall_forall. intros x Hx. rewrite elem_of_reverse in Hx.
    pose proof (chain_all _ _ Hc) as Hall.
    exact (proj1 (Forall_forall _ _) Hall x Hx).
Qed.

Lemma ascending_sublist (l' l : list (list ChatEntry.t)) :
  l' `sublist_of` l -> ascending l -> ascending l'.
Proof.
  induction 1 as [|x l1 l2 Hsub IH|x l1 l2 Hsub IH]; [done| |].
  - intros [Hall Hs]. split; [|by apply IH].
    apply Forall_forall. intros y Hy.
    apply (proj1 (Forall_forall _ _) Hall). by eapply elem_of_sublist.
  - intros [_ Hs]. by apply IH.
Qed.

(** [relates logged h]: [logged] holds, for each index of [h], an earlier
    version of the entry found there. *)
Lemma relates_step (logged h h' : list ChatEntry.t) :
  length logged = length h ->
  (forall i e, h !! i = Some e ->
               exists e0, logged !! i = Some e0 /\ sameSlot e0 e) ->
  evolves h h' ->
  length (logged ++ drop (length logged) h') = length h' /\
  (forall i e, h' !! i = Some e ->
               exists e0, (logged ++ drop (length logged) h') !! i = Some e0 /\
                          sameSlot e0 e).
Proof.
  intros Hlen Hrel Hev. pose proof (evolves_length _ _ Hev) as Hle. split.
  - rewrite length_app, length_drop. lia.
  - intros i e Hi. destruct (decide (i < length logged)%nat) as [Hlt|Hge].
    + destruct (lookup_lt_is_Some_2 h i) as [e1 Hi1]; [lia|].
      destruct (Hrel _ _ Hi1) as (e0 & Hi0 & Hs0).
      destruct (Hev _ _ Hi1) as (e' & Hi' & Hs').
      exists e0. split; [by apply lookup_app_l_Some|].
      assert (e' = e) as -> by congruence. by eapply sameSlot_trans.
    + exists e. split; [|apply sameSlot_refl].
      rewrite lookup_app_r by lia. rewrite lookup_drop.
      by replace (length logged + (i - length logged))%nat with i by lia.
Qed.

Section SessionLogFacts.

Variable JSON_stringify : ChatEntry.t -> jsstring.

Lemma sessionLogEffect_appends st logged h' :
  lastChatHistoryLength st = length logged ->
  sessionFile st = concat (logLine JSON_stringify <$> logged) ->
  sessionLogEffect JSON_stringify true h' st
  = mkLogState (length h')
      (concat (logLine JSON_stringify
               <$> (logged ++ drop (length logged) h'))).
Proof.
  intros Hlast Hfile. unfold sessionLogEffect. rewrite Hlast, Hfile.
  f_equal. rewrite fmap_app, concat_app, andb_true_r.
  destruct (drop (length logged) h') as [|x r] eqn:Hd.
  - simpl. by rewrite app_nil_r.
  - simpl length. destruct (Z.ltb_spec 0 (Z.of_nat (S (length r)))); [|lia].
    f_equal. rewrite join_lines by done.
    by rewrite <- list_fmap_compose.
Qed.

Lemma firstRendered_snoc pre h i :
  firstRendered (pre ++ [h]) i
  = match firstRendered pre i with
    | Some e => Some e
    | None => h !! i
    end.
Proof.
  induction pre as [|x pre IH]; simpl; [by destruct (h !! i)|].
  by destruct (x !! i).
Qed.

Lemma firstRendered_step pre logged h' :
  (forall i, logged !! i = firstRendered pre i) ->
  forall i, (logged ++ drop (length logged) h') !! i
            = firstRendered (pre ++ [h']) i.
Proof.
  intros Hpin i. rewrite firstRendered_snoc, <- Hpin.
  destruct (logged !! i) as [e0|] eqn:Hi.
  - by apply lookup_app_l_Some.
  - apply lookup_ge_None in Hi. rewrite lookup_app_r by done.
    rewrite lookup_drop. f_equal. lia.
Qed.

Lemma sessionLogRenders_sorted pre hs st h logged :
  ascending (h :: hs) ->
  lastChatHistoryLength st = length logged ->
  sessionFile st = concat (logLine JSON_stringify <$> logged) ->
  length logged = length h ->
  (forall i e, h !! i = Some e ->
               exists e0, logged !! i = Some e0 /\ sameSlot e0 e) ->
  (forall i, logged !! i = firstRendered pre i) ->
  exists logged',
    sessionFile
      (sessionLogRenders JSON_stringify ((fun h => (true, h)) <$> hs) st)
    = concat (logLine JSON_stringify <$> logged') /\
    length logged' = length (default h (last hs)) /\
    (forall i e, default h (last hs) !! i = Some e ->
                 exists e0, logged' !! i = Some e0 /\ sameSlot e0 e) /\
    (forall i, logged' !! i = firstRendered (pre ++ hs) i).
Proof.
  revert pre st h logged.
  induction hs as [|h' hs IH];
    intros pre st h logged Hs Hlast Hfile Hlen Hrel Hpin.
  - exists logged. rewrite app_nil_r. by split_and!.
  - pose proof (firstRendered_step pre logged h' Hpin) as Hpin'.
    destruct Hs as [Hall Hs].
    apply Forall_cons in Hall as [He Hall].
    destruct (relates_step logged h h' Hlen Hrel He) as [Hlen' Hrel'].
    rewrite fmap_cons. unfold sessionLogRenders. simpl foldl.
    rewrite (sessionLogEffect_appends st logged h' Hlast Hfile).
    destruct (IH (pre ++ [h'])
                 (mkLogState (length h')
                    (concat (logLine JSON_stringify
                             <$> (logged ++ drop (length logged) h'))))
                 h' (logged ++ drop (length logged) h') Hs)
      as (logged' & Hf' & Hl' & Hr' & Hp'); try done.
    exists logged'. split; [exact Hf'|].
    assert (Hlast' : default h (last (h' :: hs)) = default h' (last hs)).
    { rewrite last_cons. by destruct (last hs). }
    rewrite Hlast'. rewrite <- app_assoc in Hp'. by split_and!.
Qed.

End SessionLogFacts.

(** X3: when every write succeeds, the session file holds one line per entry
    of the log, in the order of the log: the line at index [i] is the JSON
    of the entry at index [i] of the first render that had an entry there
    ([firstRendered]), so changes made in place afterwards are not written.
    That entry has the time stamp and the tool call of the entry now at that
    index.  [renders] are the logs that were rendered, oldest first, ending
    with the current one. *)
Theorem session_log_has_one_line_per_entry
        JSON_parse JSON_stringify a renders :
  reachable JSON_parse a ->
  renders `sublist_of` reverse (observed (ui a)) ->
  last renders = Some (chatHistory (ui a)) ->
  exists logged,
    sessionFile
      (sessionLogRenders JSON_stringify ((fun h => (true, h)) <$> renders)
                         (mkLogState 0 []))
    = concat (logLine JSON_stringify <$> logged) /\
    length logged = length (chatHistory (ui a)) /\
    (forall i, logged !! i = firstRendered renders i) /\
    (forall i e, chatHistory (ui a) !! i = Some e ->
                 exists e0, logged !! i = Some e0 /\
                            ChatEntry.timestamp e0 = ChatEntry.timestamp e /\
                            ChatEntry.toolCall e0 = ChatEntry.toolCall e).
Proof.
  intros (m & t0 & evs & ->) Hsub Hlast.
  pose proof (run_logInv JSON_parse m t0 evs) as [_ Hchain].
  apply chain_ascending in Hchain.
  pose proof (ascending_sublist _ _ Hsub Hchain) as Hsorted.
  destruct (sessionLogRenders_sorted JSON_stringify [] renders
              (mkLogState 0 []) [] [])
    as (logged & Hf & Hl & Hr & Hp); try done.
  { split; [|done]. apply Forall_forall. by intros h _ i e Hi. }
  rewrite Hlast in Hl, Hr. simpl in Hl, Hr, Hp.
  exists logged. split_and!; [done..|].
  intros i e Hi. destruct (Hr i e Hi) as (e0 & Hi0 & Ht & Hc & _).
  exists e0. split_and!; [done| |]; congruence.
Qed.

Lemma session_log_has_one_line_per_entry_witness :
  sessionFile
    (sessionLogRenders Ex2.show
       ((fun h => (true, h)) <$> reverse (observed (ui Ex2.hello)))
       (mkLogState 0 []))
  = lit "hello" ++ newline ++ lit "Hi" ++ newline /\
  exists logged,
    sessionFile
      (sessionLogRenders Ex2.show
         ((fun h => (true, h)) <$> reverse (observed (ui Ex2.hello)))
         (mkLogState 0 []))
    = concat (logLine Ex2.show <$> logged) /\
    length logged = length (chatHistory (ui Ex2.hello)) /\
    (forall i, logged !! i
               = firstRendered (reverse (observed (ui Ex2.hello))) i) /\
    (forall i e, chatHistory (ui Ex2.hello) !! i = Some e ->
                 exists e0, logged !! i = Some e0 /\
                            ChatEntry.timestamp e0 = ChatEntry.timestamp e /\
                            ChatEntry.toolCall e0 = ChatEntry.toolCall e).
Proof.
  split; [vm_compute; reflexivity|].
  apply (session_log_has_one_line_per_entry Ex.parse Ex2.show Ex2.hello).
  - exists (Some (lit "hello")), 0,
      [ChunkArrived 300 (Ex.contentChunk "Hi");
       ChunkArrived 600 (Ex.contentChunk " there");
       Exhausted 900].
    reflexivity.
  - reflexivity.
  - vm_compute. reflexivity.
Defined.

(** X4: the effect writes each entry at most once.  Run again on the same
    log it changes nothing, also after a write that failed, so entries
    missed by a failed write are never written; and on a log extended by
    [more] it writes the lines of [more] only. *)
Theorem session_log_never_rewrites JSON_stringify ok ok' h more st :
  sessionLogEffect JSON_stringify ok' h
    (sessionLogEffect JSON_stringify ok h st)
  = sessionLogEffect JSON_stringify ok h st /\
  sessionFile (sessionLogEffect JSON_stringify false h st) = sessionFile st /\
  sessionFile
    (sessionLogEffect JSON_stringify true (h ++ more)
       (sessionLogEffect JSON_stringify ok h st))
  = sessionFile (sessionLogEffect JSON_stringify ok h st)
    ++ concat (logLine JSON_stringify <$> more).
Proof.
  split_and!.
  - unfold sessionLogEffect at 1. simpl lastChatHistoryLength.
    rewrite drop_all. reflexivity.
  - unfold sessionLogEffect. simpl. by rewrite andb_false_r.
  - assert (Hlen : lastChatHistoryLength
                     (sessionLogEffect JSON_stringify ok h st) = length h)
      by done.
    generalize dependent (sessionLogEffect JSON_stringify ok h st).
    intros st1 Hlen. unfold sessionLogEffect. rewrite Hlen, drop_app_length.
    simpl sessionFile.
    destruct more as [|x r]; [simpl; by rewrite app_nil_r|].
    simpl length. destruct (Z.ltb_spec 0 (Z.of_nat (S (length r)))); [|lia].
    simpl andb. cbv iota. f_equal. rewrite join_lines by done.
    by rewrite <- list_fmap_compose.
Qed.

(** ** Flushes at one instant, and chunks under the throttle *)

Section Instant.

Variable JSON_parse : jsstring -> option ToolArgs.

(** Once [flushUpdates] has run at [now], it refuses to run again at [now],
    whatever happened to the component in between. *)
Lemma flushUpdates_then_refused now us u' :
  flushUpdates JSON_parse now (u', (flushUpdates JSON_parse now us).2)
  = (u', (flushUpdates JSON_parse now us).2).
Proof.
  destruct us as [u s].
  destruct (Z.ltb_spec (now - lastUpdateTime s) 250) as [Hlt|Hge].
  - rewrite (flushUpdates_refused JSON_parse now u s) by auto.
    apply flushUpdates_refused. auto.
  - destruct (capturedConfirmationOptions s) as [o|] eqn:Hc.
    + rewrite (flushUpdates_refused JSON_parse now u s) by (right; eauto).
      apply flushUpdates_refused. right. simpl. rewrite Hc. eauto.
    + pose proof (flushUpdates_stamp JSON_parse now u s Hge Hc) as Hstamp.
      apply flushUpdates_refused. left. lia.
Qed.

Lemma flushUpdates_idempotent now us :
  flushUpdates JSON_parse now (flushUpdates JSON_parse now us)
  = flushUpdates JSON_parse now us.
Proof.
  pose proof (flushUpdates_then_refused now us
                (flushUpdates JSON_parse now us).1) as H.
  by destruct (flushUpdates JSON_parse now us).
Qed.

(** A chunk that only fills the buffers. *)
Lemma onChunk_throttled now chunk u s :
  now - lastUpdateTime s < 250 ->
  (Chunk.type chunk = ch_completion -> truthy (Chunk.content chunk) = false) ->
  (onChunk JSON_parse now chunk (u, s)).1 = u /\
  lastUpdateTime (onChunk JSON_parse now chunk (u, s)).2 = lastUpdateTime s.
Proof.
  intros Ht Hcompl. unfold onChunk.
  destruct (Chunk.type chunk);
    repeat match goal with
           | |- context [truthy ?x] => destruct (truthy x) eqn:?
           | |- context [match ?x with Some _ => _ | None => _ end] =>
               destruct x
           end;
    rewrite ?flushUpdates_refused by auto; try done.
  by specialize (Hcompl eq_refl).
Qed.

End Instant.

(** X5: two flushes at the same instant are one flush: the second is always
    refused.  So the flush that the done case asks for adds nothing to the
    one that follows every chunk: a done chunk is handled by one flush. *)
Theorem flush_is_idempotent_at_an_instant
        JSON_parse now us content tokenCount toolCalls toolCall toolResult :
  flushUpdates JSON_parse now (flushUpdates JSON_parse now us)
  = flushUpdates JSON_parse now us /\
  onChunk JSON_parse now
          (Chunk.mk ch_done content tokenCount toolCalls toolCall toolResult)
          us
  = flushUpdates JSON_parse now us.
Proof.
  split; [apply flushUpdates_idempotent|].
  destruct us as [u s]. unfold onChunk. simpl Chunk.type. cbv iota.
  apply flushUpdates_idempotent.
Qed.

(** X6: chunks that arrive less than 250 ms after the last flush change
    nothing in the component, however many they are, unless one is a
    completion with text: they only fill the buffers, and the time of the
    last flush stays. *)
Theorem throttled_chunks_are_invisible
        JSON_parse u s (chunks : list (Z * Chunk.t)) :
  Forall (fun tc => tc.1 - lastUpdateTime s < 250 /\
                    (Chunk.type tc.2 = ch_completion ->
                     truthy (Chunk.content tc.2) = false)) chunks ->
  ui (run JSON_parse (mkApp u (Some s)) (uncurry ChunkArrived <$> chunks)) = u /\
  exists s',
    session (run JSON_parse (mkApp u (Some s)) (uncurry ChunkArrived <$> chunks))
    = Some s' /\
    lastUpdateTime s' = lastUpdateTime s.
Proof.
  revert s. induction chunks as [|[t c] chunks IH]; intros s Hall.
  - split; [done|]. by exists s.
  - apply Forall_cons in Hall as [[Ht Hc] Hall]. simpl in Ht, Hc.
    destruct (onChunk_throttled JSON_parse t c u s Ht Hc) as [Hu Hl].
    rewrite fmap_cons.
    change (run JSON_parse (mkApp u (Some s))
                (uncurry ChunkArrived (t, c) :: (uncurry ChunkArrived <$> chunks)))
      with (run JSON_parse
                (let '(u1, s1) := onChunk JSON_parse t c (u, s) in
                 mkApp u1 (Some s1))
                (uncurry ChunkArrived <$> chunks)).
    destruct (onChunk JSON_parse t c (u, s)) as [u1 s1]. simpl in Hu, Hl.
    subst u1. rewrite <- Hl in Hall.
    destruct (IH s1 Hall) as (Hui & s' & Hs' & Hl').
    split; [done|]. exists s'. split; [done|]. congruence.
Qed.

Lemma throttled_chunks_are_invisible_witness :
  let a := mount (Some (lit "hello")) 0 in
  let chunks := [(10, Ex.contentChunk "Hi"); (20, Ex.contentChunk " there");
                 (30, Ex.doneChunk)] in
  ui (run Ex.parse a (uncurry ChunkArrived <$> chunks)) = ui a /\
  exists s',
    session (run Ex.parse a (uncurry ChunkArrived <$> chunks)) = Some s' /\
    lastUpdateTime s' = 0.
Proof.
  intros a chunks.
  apply (throttled_chunks_are_invisible
           Ex.parse (ui a) (mkSession None [] 0 None [] 0 None) chunks).
  repeat (apply Forall_cons_2; [split; [simpl; lia|discriminate]|]).
  apply Forall_nil_2.
Defined.

Section Completion.

Variable JSON_parse : jsstring -> option ToolArgs.

Lemma onChunkAt_same now chunk us :
  onChunkAt JSON_parse now now now chunk us = onChunk JSON_parse now chunk us.
Proof. by destruct us. Qed.

Lemma flushUpdates_evolves now u s :
  evolves (chatHistory u) (chatHistory (flushUpdates JSON_parse now (u, s)).1).
Proof.
  apply (flushUpdates_preserves JSON_parse
           (fun u' => evolves (chatHistory u) (chatHistory u'))).
  - intros u0 f H1 H2. simpl. by eapply evolves_trans.
  - intros u0 u' Hh _. by rewrite Hh.
  - apply evolves_refl.
Qed.

(** X7: a completion chunk with text always adds its assistant entry, not in
    progress and stamped with the time read for it, directly after what the
    flush before it committed; neither the throttle nor the guard holds it
    back, and the flush after the [switch] leaves the entry and its index
    as they are.  The entry is the last of the log when that later flush is
    refused, as it is when the clock has not advanced since the first
    flush; otherwise the later flush may commit buffered text and tool
    calls after it. *)
Theorem completion_entry_follows_the_flush
        t1 t2 t3 us c text tokenCount toolCalls toolCall toolResult :
  let chunk := Chunk.mk ch_completion (Some (c :: text)) tokenCount toolCalls
                        toolCall toolResult in
  let committed := chatHistory (flushUpdates JSON_parse t1 us).1 in
  let entry := ChatEntry.mk ty_assistant (c :: text) t2 None None None None in
  let after := chatHistory (onChunkAt JSON_parse t1 t2 t3 chunk us).1 in
  after !! length committed = Some entry /\
  evolves committed after /\
  (t3 - lastUpdateTime (flushUpdates JSON_parse t1 us).2 < 250 ->
   after = committed ++ [entry]) /\
  (t2 = t1 ->
   chatHistory (onChunk JSON_parse t1 chunk us).1 = committed ++ [entry]).
Proof.
  destruct us as [u s]. cbv zeta. unfold onChunkAt, onChunk.
  cbn [Chunk.type Chunk.content truthy default].
  pose proof (flushUpdates_then_refused JSON_parse t1 (u, s)) as Href.
  destruct (flushUpdates JSON_parse t1 (u, s)) as [u1 s1].
  cbn [fst snd] in Href |- *.
  set (entry := ChatEntry.mk ty_assistant (c :: text) t2 None None None None).
  set (u2 := setChatHistory (fun prev => prev ++ [_]) u1).
  pose proof (flushUpdates_evolves t3 u2 s1) as Hev.
  change (chatHistory u2) with (chatHistory u1 ++ [entry]) in Hev.
  split_and!.
  - destruct (Hev (length (chatHistory u1)) entry) as (e' & He' & Hslot).
    { by rewrite lookup_app_r, Nat.sub_diag. }
    destruct Hslot as (_ & _ & _ & _ & Hkeep).
    by rewrite He', (Hkeep eq_refl).
  - eapply evolves_trans; [apply evolves_app|exact Hev].
  - intros Hlt. by rewrite flushUpdates_refused by by left.
  - intros ->. by rewrite Href.
Qed.

End Completion.

(** The clock passes the throttle between the two flushes of a completion
    chunk: "A" was buffered at 10 ms, the first flush reads 249 ms and is
    refused, the flush after the [switch] reads 250 ms and commits "A"
    after the completion entry. *)
Lemma buffered_text_can_follow_the_completion :
  let a := run Ex.parse (mount (Some (lit "hello")) 0)
               [ChunkArrived 10 (Ex.contentChunk "A")] in
  let s := mkSession None (lit "A") 0 None [] 0 None in
  session a = Some s /\
  chatHistory
    (onChunkAt Ex.parse 249 249 250 (Ex.completionChunk "Done") (ui a, s)).1
  = [Ex.userEntry "hello" 0;
     ChatEntry.mk ty_assistant (lit "Done") 249 None None None None;
     ChatEntry.mk ty_assistant (lit "A") 250 (Some true) None None None].
Proof. vm_compute. auto. Qed.

(** ** Streams of content, tool calls and endings *)

(** X8: a stream of content chunks that ends with a final flush which passes
    the throttle leaves the user's entry followed by one assistant entry, no
    longer in progress, whose text is the payloads in arrival order; the
    session is over and the component is neither streaming nor processing. *)
Theorem content_stream_ends_with_one_entry
        JSON_parse message t0 (chunks : list (Z * Chunk.t)) now s :
  message <> [] ->
  Forall (fun tc => Chunk.type tc.2 = ch_content) chunks ->
  session (run JSON_parse (mount (Some message) t0)
               (uncurry ChunkArrived <$> chunks)) = Some s ->
  250 <= now - lastUpdateTime s ->
  concat ((fun tc => payload tc.2) <$> chunks) <> [] ->
  (exists t,
      chatHistory
        (ui (run JSON_parse (mount (Some message) t0)
                 ((uncurry ChunkArrived <$> chunks) ++ [Exhausted now])))
      = [ChatEntry.mk ty_user message t0 None None None None;
         streamed (concat ((fun tc => payload tc.2) <$> chunks)) t false]) /\
  session (run JSON_parse (mount (Some message) t0)
               ((uncurry ChunkArrived <$> chunks) ++ [Exhausted now])) = None /\
  isStreaming (ui (run JSON_parse (mount (Some message) t0)
                       ((uncurry ChunkArrived <$> chunks) ++ [Exhausted now])))
  = false /\
  isProcessing (ui (run JSON_parse (mount (Some message) t0)
                        ((uncurry ChunkArrived <$> chunks) ++ [Exhausted now])))
  = false.
Proof.
  intros Hmsg Hall Hs Ht Hne. split.
  - by apply (content_stream_committed JSON_parse message t0 chunks now s).
  - rewrite !run_snoc. unfold step. rewrite Hs. simpl session. simpl ui.
    unfold onExhausted.
    destruct (flushUpdates JSON_parse now _) as [u1 s1].
    by destruct (streamingEntry s1).
Qed.

Lemma content_stream_ends_with_one_entry_witness :
  let chunks := [(300, Ex.contentChunk "Hi"); (310, Ex.contentChunk " there")] in
  (exists t,
      chatHistory
        (ui (run Ex.parse (mount (Some (lit "hello")) 0)
                 ((uncurry ChunkArrived <$> chunks) ++ [Exhausted 600])))
      = [Ex.userEntry "hello" 0;
         streamed (concat ((fun tc => payload tc.2) <$> chunks)) t false]) /\
  session (run Ex.parse (mount (Some (lit "hello")) 0)
               ((uncurry ChunkArrived <$> chunks) ++ [Exhausted 600])) = None /\
  isStreaming (ui (run Ex.parse (mount (Some (lit "hello")) 0)
                       ((uncurry ChunkArrived <$> chunks) ++ [Exhausted 600])))
  = false /\
  isProcessing (ui (run Ex.parse (mount (Some (lit "hello")) 0)
                        ((uncurry ChunkArrived <$> chunks) ++ [Exhausted 600])))
  = false.
Proof.
  intros chunks.
  apply (content_stream_ends_with_one_entry
           Ex.parse (lit "hello") 0 chunks 600
           (mkSession (Some (streamed (lit "Hi") 300 true)) (lit " there") 0
                      None [] 300 None)).
  - discriminate.
  - repeat (apply Forall_cons_2; [reflexivity|]). apply Forall_nil_2.
  - reflexivity.
  - simpl. lia.
  - discriminate.
Defined.

(** X9: while content chunks arrive, whatever their timing, no payload is
    lost or shown twice: the text of the in-progress entry (none before the
    first flush that commits) followed by the buffered text is the payloads
    received so far, in order. *)
Theorem content_is_conserved
        JSON_parse message t0 (chunks : list (Z * Chunk.t)) :
  message <> [] ->
  Forall (fun tc => Chunk.type tc.2 = ch_content) chunks ->
  exists s,
    session (run JSON_parse (mount (Some message) t0)
                 (uncurry ChunkArrived <$> chunks)) = Some s /\
    ((chatHistory (ui (run JSON_parse (mount (Some message) t0)
                           (uncurry ChunkArrived <$> chunks)))
      = [ChatEntry.mk ty_user message t0 None None None None] /\
      accumulatedContent s = concat ((fun tc => payload tc.2) <$> chunks)) \/
     (exists c t,
         chatHistory (ui (run JSON_parse (mount (Some message) t0)
                              (uncurry ChunkArrived <$> chunks)))
         = [ChatEntry.mk ty_user message t0 None None None None;
            streamed c t true] /\
         c ++ accumulatedContent s
         = concat ((fun tc => payload tc.2) <$> chunks))).
Proof.
  intros Hmsg Hall.
  set (first := ChatEntry.mk ty_user message t0 None None None None).
  set (u0 := setIsStreaming true
               (setIsProcessing true
                  (setChatHistory (fun _ => [first]) initialUI))).
  set (s0 := mkSession None [] 0 None [] t0 None).
  assert (Hm : mount (Some message) t0 = mkApp u0 (Some s0))
    by (unfold mount; by destruct message).
  rewrite Hm.
  destruct (run_contentInv JSON_parse first eq_refl chunks [] u0 s0 Hall)
    as (u' & s' & Hrun & (_ & _ & _ & Hlog)).
  { split_and!; [done..|]. left. by split_and!. }
  rewrite Hrun. exists s'. split; [done|]. simpl in *.
  destruct Hlog as [(_ & Hh & Hacc) | (_ & c & t & _ & Hh & Hacc)].
  - left. by split.
  - right. exists c, t. by split.
Qed.

Lemma content_is_conserved_witness :
  let chunks := [(300, Ex.contentChunk "Hi"); (310, Ex.contentChunk " there")] in
  exists s,
    session (run Ex.parse (mount (Some (lit "hello")) 0)
                 (uncurry ChunkArrived <$> chunks)) = Some s /\
    ((chatHistory (ui (run Ex.parse (mount (Some (lit "hello")) 0)
                           (uncurry ChunkArrived <$> chunks)))
      = [Ex.userEntry "hello" 0] /\
      accumulatedContent s = concat ((fun tc => payload tc.2) <$> chunks)) \/
     (exists c t,
         chatHistory (ui (run Ex.parse (mount (Some (lit "hello")) 0)
                              (uncurry ChunkArrived <$> chunks)))
         = [Ex.userEntry "hello" 0; streamed c t true] /\
         c ++ accumulatedContent s
         = concat ((fun tc => payload tc.2) <$> chunks))).
Proof.
  intros chunks.
  apply (content_is_conserved Ex.parse (lit "hello") 0 chunks).
  - discriminate.
  - repeat (apply Forall_cons_2; [reflexivity|]). apply Forall_nil_2.
Defined.

Section ToolCalls.

Variable JSON_parse : jsstring -> option ToolArgs.

Lemma updater_tool_calls now h s tcs :
  pendingToolCalls s = Some tcs ->
  streamingEntry (updater JSON_parse now (h, s)).2 = None /\
  exists prefix tail,
    (updater JSON_parse now (h, s)).1 = prefix ++ tail /\
    ChatEntry.toolCall <$> tail = Some <$> tcs /\
    ChatEntry.timestamp <$> tail = (fun _ => now) <$> tcs /\
    (pendingToolResults s = [] -> tail = toolCallEntry JSON_parse now <$> tcs).
Proof.
  intros Hcalls. unfold updater.
  pose proof (flushContent_results now h s) as [R1 C1].
  destruct (flushContent now (h, s)) as [h1 s1]. simpl in R1, C1.
  unfold flushToolCalls. rewrite C1, Hcalls.
  set (P := updateAt (findIndex ChatEntry.streaming h1)
                     (ChatEntry.complete_with tcs) h1).
  unfold flushToolResults. simpl pendingToolResults. rewrite R1.
  destruct (0 <? Z.of_nat (length (pendingToolResults s))) eqn:Hres.
  - simpl. split; [done|].
    exists (applyResults (pendingToolResults s) <$> P),
           (applyResults (pendingToolResults s)
            <$> (toolCallEntry JSON_parse now <$> tcs)).
    split_and!.
    + by rewrite fmap_app.
    + rewrite <- !list_fmap_compose. apply list_fmap_ext. intros i tc _. simpl.
      by destruct (applyResults_sameSlot
                     (pendingToolResults s) (toolCallEntry JSON_parse now tc))
        as (_ & -> & _).
    + rewrite <- !list_fmap_compose. apply list_fmap_ext. intros i tc _. simpl.
      by destruct (applyResults_sameSlot
                     (pendingToolResults s) (toolCallEntry JSON_parse now tc))
        as (-> & _).
    + intros Hnil. rewrite Hnil in Hres. done.
  - simpl. split; [done|].
    exists P, (toolCallEntry JSON_parse now <$> tcs).
    split_and!; [done| | |done]; by rewrite <- list_fmap_compose.
Qed.

End ToolCalls.

(** X10: when a tool_calls chunk arrives and the flush that follows passes
    the throttle, no entry is in progress afterwards, and the log ends with
    one entry per announced call, in the order of the announcement, each
    with its call and the time of the flush; they are the tool-call entries
    with their descriptions when no tool result is buffered.  Before them
    the log grows by at most the entry for buffered text. *)
Theorem tool_calls_are_appended_in_order
        JSON_parse a s now content tokenCount tcs toolCall toolResult :
  reachable JSON_parse a ->
  session a = Some s ->
  250 <= now - lastUpdateTime s ->
  streamingCount
    (chatHistory
       (ui (step JSON_parse a
                 (ChunkArrived now
                    (Chunk.mk ch_tool_calls content tokenCount (Some tcs)
                              toolCall toolResult))))) = 0%nat /\
  exists prefix tail,
    chatHistory
      (ui (step JSON_parse a
                (ChunkArrived now
                   (Chunk.mk ch_tool_calls content tokenCount (Some tcs)
                             toolCall toolResult))))
    = prefix ++ tail /\
    ChatEntry.toolCall <$> tail = Some <$> tcs /\
    ChatEntry.timestamp <$> tail = (fun _ => now) <$> tcs /\
    (pendingToolResults s = [] -> tail = toolCallEntry JSON_parse now <$> tcs) /\
    length prefix
    = (length (chatHistory (ui a))
       + match accumulatedContent s, streamingEntry s with
         | _ :: _, None => 1
         | _, _ => 0
         end)%nat.
Proof.
  intros Hreach Hs Ht.
  pose proof (guard_never_fires JSON_parse a s Hreach Hs) as Hguard.
  pose proof (reachable_inv JSON_parse a Hreach) as Hinv.
  unfold appInv in Hinv. rewrite Hs in Hinv. destruct Hinv as [Hcoh _].
  set (s' := mkSession (streamingEntry s) (accumulatedContent s)
                       (lastTokenCount s) (Some tcs) (pendingToolResults s)
                       (lastUpdateTime s) (capturedConfirmationOptions s)).
  assert (Hstep : chatHistory
                    (ui (step JSON_parse a
                           (ChunkArrived now
                              (Chunk.mk ch_tool_calls content tokenCount
                                        (Some tcs) toolCall toolResult))))
                  = (updater JSON_parse now (chatHistory (ui a), s')).1).
  { unfold step. rewrite Hs. unfold onChunk. simpl Chunk.type. cbv iota.
    simpl Chunk.toolCalls. cbv iota. fold s'.
    rewrite <- (flushUpdates_effective JSON_parse now (ui a) s') by done.
    by destruct (flushUpdates JSON_parse now (ui a, s')). }
  rewrite Hstep.
  destruct (updater_tool_calls JSON_parse now (chatHistory (ui a)) s' tcs
              eq_refl) as (Hnone & prefix & tail & Hh & Hc & Htime & Htail).
  assert (Hcoh' : coherent (chatHistory (ui a)) s')
    by (eapply coherent_same_entry; [|exact Hcoh]; done).
  pose proof (updater_coherent JSON_parse now _ _ Hcoh') as (_ & _ & Hzero).
  split; [by apply Hzero|].
  exists prefix, tail. split_and!; try done.
  pose proof (updater_length JSON_parse now (chatHistory (ui a)) s') as Hlen.
  rewrite Hh, length_app in Hlen.
  assert (length tail = length tcs)
    by (rewrite <- (length_fmap ChatEntry.toolCall), Hc; apply length_fmap).
  unfold appended in Hlen. simpl in Hlen. lia.
Qed.

Lemma tool_calls_are_appended_in_order_witness :
  let a := run Ex.parse (mount (Some (lit "delete file.txt")) 0)
               [ChunkArrived 300 (Ex.contentChunk "On it")] in
  let chunk := Chunk.mk ch_tool_calls None None (Some [Ex.rmCall]) None None in
  streamingCount (chatHistory (ui (step Ex.parse a (ChunkArrived 600 chunk))))
  = 0%nat /\
  exists prefix tail,
    chatHistory (ui (step Ex.parse a (ChunkArrived 600 chunk)))
    = prefix ++ tail /\
    ChatEntry.toolCall <$> tail = Some <$> [Ex.rmCall] /\
    ChatEntry.timestamp <$> tail = (fun _ => 600) <$> [Ex.rmCall] /\
    (@nil (GrokToolCall.t * ToolResult.t) = [] ->
     tail = toolCallEntry Ex.parse 600 <$> [Ex.rmCall]) /\
    length prefix = (2 + 0)%nat.
Proof.
  intros a chunk.
  apply (tool_calls_are_appended_in_order
           Ex.parse a
           (mkSession (Some (streamed (lit "On it") 300 true)) [] 0 None []
                      300 None)
           600 None None [Ex.rmCall] None None).
  - exists (Some (lit "delete file.txt")), 0,
      [ChunkArrived 300 (Ex.contentChunk "On it")].
    reflexivity.
  - reflexivity.
  - simpl. lia.
Defined.



(** X12: in a reachable state the throttle alone decides whether a flush
    commits: [flushUpdates] gives [chatHistory] a new value exactly when at
    least 250 ms have passed since the last flush (or the start), also while
    a confirmation dialog is open, and then the flush becomes the last
    one. *)
Theorem throttle_alone_gates_the_flush JSON_parse a s now :
  reachable JSON_parse a ->
  session a = Some s ->
  (observed (flushUpdates JSON_parse now (ui a, s)).1 <> observed (ui a)
   <-> 250 <= now - lastUpdateTime s) /\
  (250 <= now - lastUpdateTime s ->
   lastUpdateTime (flushUpdates JSON_parse now (ui a, s)).2 = now).
Proof.
  intros Hreach Hs.
  pose proof (guard_never_fires JSON_parse a s Hreach Hs) as Hguard.
  split; [split|].
  - by intros [? _]%flushUpdates_spacing.
  - intros Ht. unfold flushUpdates.
    destruct (Z.ltb_spec (now - lastUpdateTime s) 250); [lia|].
    rewrite Hguard.
    destruct (updater JSON_parse now (chatHistory (ui a), s)) as [h1 s1].
    assert (Hne : h1 :: observed (ui a) <> observed (ui a)).
    { intros E. apply (f_equal length) in E. simpl in E. lia. }
    by destruct (lastTokenCount s1 =? 0).
  - intros Ht. by apply flushUpdates_stamp.
Qed.

Lemma throttle_alone_gates_the_flush_witness :
  let a := run Ex.parse (mount (Some (lit "hello")) 0)
               [ConfirmationRequested Ex.dialog] in
  let s := mkSession None [] 0 None [] 0 None in
  confirmationOptions (ui a) = Some Ex.dialog /\
  (observed (flushUpdates Ex.parse 300 (ui a, s)).1 <> observed (ui a)
   <-> 250 <= 300 - lastUpdateTime s) /\
  (250 <= 300 - lastUpdateTime s ->
   lastUpdateTime (flushUpdates Ex.parse 300 (ui a, s)).2 = 300).
Proof.
  intros a s. split; [reflexivity|].
  apply (throttle_alone_gates_the_flush Ex.parse a s 300).
  - exists (Some (lit "hello")), 0, [ConfirmationRequested Ex.dialog].
    reflexivity.
  - reflexivity.
Defined.

(** ** The token count and the descriptions *)

Section TokenCount.

Variable JSON_parse : jsstring -> option ToolArgs.

Lemma flushUpdates_countFrom shown now us :
  countFrom shown us -> countFrom shown (flushUpdates JSON_parse now us).
Proof.
  destruct us as [u s]. intros Hc. unfold flushUpdates.
  destruct (now - lastUpdateTime s <? 250); [done|].
  destruct (capturedConfirmationOptions s); [done|].
  assert (Hl : lastTokenCount (updater JSON_parse now (chatHistory u, s)).2
               = lastTokenCount s).
  { unfold updater, flushContent, flushToolCalls, flushToolResults.
    destruct (accumulatedContent s), (streamingEntry s), (pendingToolCalls s);
      simpl;
      repeat match goal with
             | |- context [if ?c then _ else _] => destruct c
             end; done. }
  destruct (updater JSON_parse now (chatHistory u, s)) as [h1 s1].
  simpl in Hl. unfold countFrom in *. simpl in *.
  destruct (Z.eqb_spec (lastTokenCount s1) 0) as [Hz|Hnz]; simpl.
  - rewrite Hl. exact Hc.
  - right. by split.
Qed.

Lemma onChunk_countFrom now chunk u s :
  countFrom (tokenCount u) (onChunk JSON_parse now chunk (u, s)).
Proof.
  unfold onChunk. apply flushUpdates_countFrom.
  destruct (Chunk.type chunk);
    repeat match goal with
           | |- context [truthy ?x] => destruct (truthy x)
           | |- context [match ?x with Some _ => _ | None => _ end] =>
               destruct x
           end;
    try (by left).
  - pose proof (flushUpdates_countFrom (tokenCount u) now (u, s)
                  (or_introl eq_refl)) as H1.
    by destruct (flushUpdates JSON_parse now (u, s)).
  - apply flushUpdates_countFrom. by left.
Qed.

End TokenCount.

(** X13: handling a chunk either leaves the token count shown as it is, or
    sets it to the last count reported by the stream, which is then not 0: a
    reported count of 0 is never shown. *)
Theorem token_count_shown_is_reported_and_not_zero JSON_parse now chunk u s :
  tokenCount (onChunk JSON_parse now chunk (u, s)).1 = tokenCount u \/
  (tokenCount (onChunk JSON_parse now chunk (u, s)).1
   = lastTokenCount (onChunk JSON_parse now chunk (u, s)).2 /\
   tokenCount (onChunk JSON_parse now chunk (u, s)).1 <> 0).
Proof. apply onChunk_countFrom. Qed.

(** X14: the description of a bash call whose arguments parse is the label
    followed by the command, cut to its first 60 code units and followed by
    "..." when it is longer; it is never longer than 80 code units. *)
Theorem bash_description_is_bounded JSON_parse id arguments args :
  JSON_parse arguments = Some args ->
  (length (description JSON_parse
             (GrokToolCall.mk id (GrokToolCall.mkfn (lit "bash") arguments)))
   <= 80)%nat /\
  (forall c, command args = Some c ->
     description JSON_parse
       (GrokToolCall.mk id (GrokToolCall.mkfn (lit "bash") arguments))
     = lit "Running command: " ++ take 60 c
       ++ (if decide (60 < length c)%nat then lit "..." else [])).
Proof.
  intros Hparse. unfold description. simpl GrokToolCall.arguments.
  rewrite Hparse. simpl GrokToolCall.name.
  change (jsstring_eqb (lit "bash") (lit "create_file")) with false.
  change (jsstring_eqb (lit "bash") (lit "str_replace_editor")) with false.
  change (jsstring_eqb (lit "bash") (lit "view_file")) with false.
  change (jsstring_eqb (lit "bash") (lit "bash")) with true.
  cbv iota. split.
  - destruct (command args) as [c|].
    + change (interpolate (substring0 60 <$> Some c)) with (take 60 c).
      rewrite !length_app, length_take.
      assert (length (lit "Running command: ") = 17%nat) by reflexivity.
      destruct (60 <? Z.of_nat (length c)).
      * assert (length (lit "...") = 3%nat) by reflexivity. lia.
      * simpl length. lia.
    + vm_compute. lia.
  - intros c Hc. rewrite Hc.
    change (interpolate (substring0 60 <$> Some c)) with (take 60 c).
    destruct (Z.ltb_spec 60 (Z.of_nat (length c))); case_decide; try lia; done.
Qed.

Lemma bash_description_is_bounded_witness :
  (length (description Ex.parse Ex.rmCall) <= 80)%nat /\
  (forall c, Some (lit "rm file.txt") = Some c ->
     description Ex.parse Ex.rmCall
     = lit "Running command: " ++ take 60 c
       ++ (if decide (60 < length c)%nat then lit "..." else [])).
Proof.
  apply (bash_description_is_bounded
           Ex.parse (lit "1") (Ex.commandJSON "rm file.txt")
           {| path := None; file_path := None;
              command := Some (lit "rm file.txt"); query := None |}).
  reflexivity.
Defined.

(** ** The processing clock *)

Section Clock.
Variable JSON_parse : jsstring -> option ToolArgs.

Lemma onExhausted_flags now us :
  let u := onExhausted JSON_parse now us in
  isProcessing u = false /\ isStreaming u = false /\ processingStartTime u = 0.
Proof.
  unfold onExhausted. destruct (flushUpdates JSON_parse now us) as [u s].
  by destruct (streamingEntry s).
Qed.

Lemma processingTimeEffect_idle later u :
  isProcessing u = false -> isStreaming u = false ->
  processingStartTime u = 0 ->
  let r := processingTimeEffect later u in
  r.2 = false /\ processingStartTime r.1 = 0 /\
  (confirmationOptions u = None -> processingTime r.1 = 0).
Proof.
  intros Hp Hs H0. unfold processingTimeEffect.
  destruct (confirmationOptions u); [done|]. by rewrite Hp, Hs.
Qed.

(** X15: however a turn ends (the stream is exhausted, it throws, or the
    user rejects an operation), the next run of the clock effect leaves no
    interval running and the start time at zero, and it shows zero seconds
    unless a confirmation dialog is still open. *)
Theorem ending_stops_the_clock (now later : Z) (error : Thrown)
        (feedback : option jsstring) (us : UI * Session) (u : UI) :
  Forall (fun u' =>
            let r := processingTimeEffect later u' in
            r.2 = false /\ processingStartTime r.1 = 0 /\
            (confirmationOptions u' = None -> processingTime r.1 = 0))
         [onExhausted JSON_parse now us; onThrown now error us;
          handleRejection feedback u].
Proof.
  repeat apply Forall_cons_2; [| | |apply Forall_nil_2].
  - destruct (onExhausted_flags now us) as (Hp & Hs & H0).
    by apply processingTimeEffect_idle.
  - destruct us as [u0 s0]. by apply processingTimeEffect_idle.
  - by apply processingTimeEffect_idle.
Qed.

End Clock.

(** X16: the clock counts from the first run of its effect.  While a
    confirmation dialog is open no interval runs; after the confirmation
    the interval runs again with the start time it had, so a tick shows
    the whole seconds since the turn began, dialog included. *)
Theorem clock_keeps_its_start_across_a_dialog
        (u : UI) (started asked confirmed tick : Z)
        (options : ConfirmationOptions) (dontAskAgain : option bool) :
  confirmationOptions u = None ->
  isProcessing u || isStreaming u = true ->
  processingStartTime u = 0 ->
  started <> 0 ->
  let r1 := processingTimeEffect started u in
  let r2 := processingTimeEffect asked (handleConfirmationRequest options r1.1) in
  let r3 := processingTimeEffect confirmed (handleConfirmation dontAskAgain r2.1) in
  let shown := processingTime (intervalTick tick r3.1) in
  r1.2 = true /\ r2.2 = false /\ r3.2 = true /\
  processingStartTime r3.1 = started /\
  1000 * shown <= tick - started < 1000 * shown + 1000.
Proof.
  intros Hc Hb H0 Hs.
  assert (Hidle : negb (isProcessing u) && negb (isStreaming u) = false)
    by (destruct (isProcessing u), (isStreaming u); done).
  assert (E1 : processingTimeEffect started u
               = (setProcessingStartTime started u, true)).
  { unfold processingTimeEffect. by rewrite Hc, Hidle, H0. }
  cbv zeta. rewrite E1. cbn [fst snd].
  unfold handleConfirmationRequest, handleConfirmation, processingTimeEffect.
  cbn [confirmationOptions setConfirmationOptions callService
       setProcessingStartTime isProcessing isStreaming processingStartTime
       fst snd].
  rewrite Hidle. destruct (started =? 0) eqn:E; [lia|].
  cbn [fst snd]. unfold intervalTick.
  cbn [processingTime setProcessingTime processingStartTime
       setConfirmationOptions callService setProcessingStartTime].
  repeat split; try done.
  - apply Z.mul_div_le; lia.
  - pose proof (Z.mod_pos_bound (tick - started) 1000 ltac:(lia)).
    pose proof (Z.div_mod (tick - started) 1000 ltac:(lia)). lia.
Qed.

Lemma clock_keeps_its_start_across_a_dialog_witness :
  let u := ui (mount (Some (lit "hello")) 0) in
  let r1 := processingTimeEffect 5 u in
  let r2 := processingTimeEffect 2000 (handleConfirmationRequest Ex.dialog r1.1) in
  let r3 := processingTimeEffect 9000 (handleConfirmation None r2.1) in
  let shown := processingTime (intervalTick 9500 r3.1) in
  r1.2 = true /\ r2.2 = false /\ r3.2 = true /\
  processingStartTime r3.1 = 5 /\
  1000 * shown <= 9500 - 5 < 1000 * shown + 1000.
Proof.
  apply (clock_keeps_its_start_across_a_dialog
           (ui (mount (Some (lit "hello")) 0)) 5 2000 9000 9500
           Ex.dialog None); [reflexivity|reflexivity|reflexivity|lia].
Defined.

(** ** The command line *)

Section CommandLine.
Variable parseInt : jsstring -> option Z.
Variable JSON_stringify : Message -> jsstring.

Lemma truthy_Some v : truthy v = true -> exists k, v = Some k /\ k <> [].
Proof. destruct v as [[|c k]|]; try done. intros _. by eexists. Qed.

(** The action gets past its checks exactly when nothing throws before them
    and an API key is set; [saved] is then what the command line gave. *)
Lemma action_launches (message : list jsstring) (options : CLI.Options)
      (host : CLI.Host) :
  let r := CLI.action parseInt JSON_stringify message options host in
  let key := js_or (js_or (CLI.apiKey options) (CLI.GROK_API_KEY host))
                   (CLI.getApiKey host) in
  CLI.launch r <> CLI.exit1 ->
  truthy key = true /\
  CLI.launchKey (CLI.launch r) = Some (default [] key).
Proof.
  cbv zeta. unfold CLI.action, CLI.exits.
  set (key := js_or (js_or (CLI.apiKey options) (CLI.GROK_API_KEY host))
                    (CLI.getApiKey host)).
  destruct (bool_decide _ && CLI.chdirThrows host); [done|].
  destruct (negb _ && CLI.loadApiKeyThrows host); [done|].
  destruct (negb _ && CLI.loadBaseURLThrows host); [done|].
  destruct (truthy key) eqn:Ek; [|done]. cbn [negb].
  destruct (truthy (CLI.prompt options)); [done|].
  destruct (negb (CLI.forceTty options) && negb (CLI.stdoutIsTTY host));
    [done|].
  by destruct (CLI.renderThrows host).
Qed.

(** X17: the API key of a launch is the first non-empty one of the command
    line option, the environment variable and the user settings, in this
    order; when none of the three is set the action exits with code 1 and
    saves nothing. *)
Theorem api_key_is_the_first_one_set
        (message : list jsstring) (options : CLI.Options) (host : CLI.Host) :
  let r := CLI.action parseInt JSON_stringify message options host in
  (forall k, CLI.launchKey (CLI.launch r) = Some k ->
     k <> [] /\
     (CLI.apiKey options = Some k \/
      (truthy (CLI.apiKey options) = false /\
       CLI.GROK_API_KEY host = Some k) \/
      (truthy (CLI.apiKey options) = false /\
       truthy (CLI.GROK_API_KEY host) = false /\
       CLI.getApiKey host = Some k))) /\
  (truthy (CLI.apiKey options) = false ->
   truthy (CLI.GROK_API_KEY host) = false ->
   truthy (CLI.getApiKey host) = false ->
   CLI.launch r = CLI.exit1 /\ CLI.saved r = [] /\
   CLI.exitCode r = Some 1).
Proof.
  cbv zeta. split.
  - intros k Hk.
    destruct (action_launches message options host) as [Ht Hkey].
    { intros Hexit. by rewrite Hexit in Hk. }
    rewrite Hk in Hkey. revert Hkey Ht. clear Hk. unfold js_or.
    destruct (CLI.apiKey options) as [[|c1 k1]|],
             (CLI.GROK_API_KEY host) as [[|c2 k2]|],
             (CLI.getApiKey host) as [[|c3 k3]|];
      cbn [truthy default]; intros [= ->] Ht; try done;
      (split; [done|]); auto.
  - intros E1 E2 E3. unfold CLI.action, CLI.exits.
    destruct (bool_decide _ && CLI.chdirThrows host); [done|].
    destruct (negb _ && CLI.loadApiKeyThrows host); [done|].
    destruct (negb _ && CLI.loadBaseURLThrows host); [done|].
    unfold js_or. by rewrite E1, E2, E3.
Qed.


(** X19: only values given on the command line are written to the user
    settings: every saved pair is the non-empty API key option under
    [apiKey] or the non-empty base URL option under [baseURL]; a key from
    the environment is never saved. *)
Theorem only_command_line_values_are_saved
        (message : list jsstring) (options : CLI.Options) (host : CLI.Host) :
  Forall (fun kv =>
            kv.2 <> [] /\
            ((kv.1 = lit "apiKey" /\ CLI.apiKey options = Some kv.2) \/
             (kv.1 = lit "baseURL" /\ CLI.baseUrl options = Some kv.2)))
         (CLI.saved (CLI.action parseInt JSON_stringify message options host)).
Proof.
  assert (Hsave : Forall (fun kv : jsstring * jsstring =>
            kv.2 <> [] /\
            ((kv.1 = lit "apiKey" /\ CLI.apiKey options = Some kv.2) \/
             (kv.1 = lit "baseURL" /\ CLI.baseUrl options = Some kv.2)))
         (CLI.saveCommandLineSettings (CLI.apiKey options)
                                      (CLI.baseUrl options))).
  { unfold CLI.saveCommandLineSettings. apply Forall_app. split.
    - destruct (truthy (CLI.apiKey options)) eqn:E; [|apply Forall_nil_2].
      destruct (truthy_Some _ E) as (k & -> & Hk).
      apply Forall_cons_2; [|apply Forall_nil_2]. cbn. split; [done|by left].
    - destruct (truthy (CLI.baseUrl options)) eqn:E; [|apply Forall_nil_2].
      destruct (truthy_Some _ E) as (k & -> & Hk).
      apply Forall_cons_2; [|apply Forall_nil_2]. cbn. split; [done|by right]. }
  unfold CLI.action, CLI.exits.
  destruct (bool_decide _ && CLI.chdirThrows host); [apply Forall_nil_2|].
  destruct (negb _ && CLI.loadApiKeyThrows host); [apply Forall_nil_2|].
  destruct (negb _ && CLI.loadBaseURLThrows host); [apply Forall_nil_2|].
  destruct (negb _); [apply Forall_nil_2|].
  destruct (truthy (CLI.prompt options));
    [|destruct (negb (CLI.forceTty options) && negb (CLI.stdoutIsTTY host));
      [|destruct (CLI.renderThrows host)]];
    cbn [CLI.saved];
    (destruct (truthy (CLI.apiKey options) || truthy (CLI.baseUrl options));
     [exact Hsave|apply Forall_nil_2]).
Qed.

End CommandLine.

(** ** The headless messages *)

Lemma convertEntries_concat chatEntries :
  convertEntries chatEntries = concat (pushMessage [] <$> chatEntries).
Proof. unfold convertEntries. by rewrite foldl_pushMessage. Qed.

(** X20: the conversion of the headless run is compositional: the messages
    of two lists of entries, one after the other, are the messages of the
    first list followed by those of the second. *)
Theorem convertEntries_app (l1 l2 : list ChatEntry.t) :
  convertEntries (l1 ++ l2) = convertEntries l1 ++ convertEntries l2.
Proof.
  rewrite !convertEntries_concat. by rewrite fmap_app, concat_app.
Qed.

Lemma pushMessage_members (e : ChatEntry.t) :
  let printed := if producesLine e then [e] else [] in
  messageContent <$> pushMessage [] e = ChatEntry.content <$> printed /\
  messageCallId <$> pushMessage [] e
  = (fun e => match ChatEntry.type e with
              | ty_tool_result => GrokToolCall.id <$> ChatEntry.toolCall e
              | _ => None
              end) <$> printed /\
  (fun m => fmap (M:=list) tc_id <$> messageToolCalls m) <$> pushMessage [] e
  = (fun e => match ChatEntry.type e, ChatEntry.toolCalls e with
              | ty_assistant, Some (tc :: more) =>
                  Some (GrokToolCall.id <$> (tc :: more))
              | _, _ => None
              end) <$> printed.
Proof.
  cbv zeta. unfold pushMessage, producesLine.
  destruct (ChatEntry.type e) eqn:Et;
    destruct (ChatEntry.toolCall e) as [tc|] eqn:Etc;
    destruct (ChatEntry.toolCalls e) as [[|c cs]|] eqn:Etcs;
    cbn; rewrite ?Et, ?Etc, ?Etcs; try done.
  all: replace (0 <? Z.of_nat (S (length cs))) with true
    by (symmetry; apply Z.ltb_lt; lia).
  all: cbn; rewrite <- list_fmap_compose; done.
Qed.

(** X21: the headless messages carry, in the order of the entries, the
    content of every entry that is printed, the id of the tool call of
    every tool result, and for an assistant entry the ids of its tool
    calls, with no [tool_calls] member when the entry has none. *)
Theorem headless_messages_keep_contents_and_ids
        (chatEntries : list ChatEntry.t) :
  let printed := List.filter producesLine chatEntries in
  messageContent <$> convertEntries chatEntries
  = ChatEntry.content <$> printed /\
  messageCallId <$> convertEntries chatEntries
  = (fun e => match ChatEntry.type e with
              | ty_tool_result => GrokToolCall.id <$> ChatEntry.toolCall e
              | _ => None
              end) <$> printed /\
  (fun m => fmap (M:=list) tc_id <$> messageToolCalls m)
    <$> convertEntries chatEntries
  = (fun e => match ChatEntry.type e, ChatEntry.toolCalls e with
              | ty_assistant, Some (tc :: more) =>
                  Some (GrokToolCall.id <$> (tc :: more))
              | _, _ => None
              end) <$> printed.
Proof.
  cbv zeta. rewrite convertEntries_concat.
  induction chatEntries as [|e es (IH1 & IH2 & IH3)]; [done|].
  rewrite fmap_cons. cbn [concat List.filter]. rewrite !fmap_app.
  rewrite IH1, IH2, IH3.
  destruct (pushMessage_members e) as (H1 & H2 & H3).
  rewrite H1, H2, H3. by destruct (producesLine e).
Qed.

(** ** Tool results *)

(** The flush that commits a matching tool result rewrites the tool-call
    entry at its index, and the arrival of a tool_result chunk appends
    nothing for the result. *)
Lemma flush_converts_matching_entry
        JSON_parse a s now ev i entry tc toolCall toolResult :
  reachable JSON_parse a ->
  session a = Some s ->
  capturedConfirmationOptions s = None ->
  250 <= now - lastUpdateTime s ->
  (ev = Exhausted now \/ exists chunk, ev = ChunkArrived now chunk) ->
  chatHistory (ui a) !! i = Some entry ->
  ChatEntry.type entry = ty_tool_call ->
  ChatEntry.toolCall entry = Some tc ->
  (toolCall, toolResult) ∈ pendingToolResults s ++ pushed ev ->
  GrokToolCall.id tc = GrokToolCall.id toolCall ->
  (exists r,
      find (matches entry) (pendingToolResults s ++ pushed ev) = Some r /\
      chatHistory (ui (step JSON_parse a ev)) !! i
      = Some (ChatEntry.as_result (resultContent r.2) r.2 entry)) /\
  (forall chunk,
      ev = ChunkArrived now chunk -> Chunk.type chunk = ch_tool_result ->
      length (chatHistory (ui (step JSON_parse a ev)))
      = (length (chatHistory (ui a)) + appended s)%nat /\
      (accumulatedContent s = [] -> pendingToolCalls s = None ->
       length (chatHistory (ui (step JSON_parse a ev)))
       = length (chatHistory (ui a)))).
Proof.
  intros Hreach Hs Hconf Ht Hev Hi Hety Hetc Hin Hid.
  pose proof (reachable_tool_call_idle _ _ _ _ Hreach Hi Hety) as Hidle.
  destruct (find_some (matches entry) _ _ Hin) as (r & Hr & _ & _).
  { unfold matches. rewrite Hety, Hetc. simpl.
    unfold jsstring_eqb. by apply bool_decide_eq_true. }
  assert (Hflush : forall s1,
             pendingToolResults s1 = pendingToolResults s ++ pushed ev ->
             lastUpdateTime s1 = lastUpdateTime s ->
             capturedConfirmationOptions s1 = None ->
             chatHistory (flushUpdates JSON_parse now (ui a, s1)).1 !! i
             = Some (ChatEntry.as_result (resultContent r.2) r.2 entry)).
  { intros s1 Hp Hl Hc1. apply flushUpdates_converts; try done; [lia|].
    by rewrite Hp. }
  split.
  - exists r. split; [done|].
    destruct Hev as [-> | [chunk ->]]; unfold step; rewrite Hs.
    + simpl pushed in Hflush. rewrite app_nil_r in Hflush.
      specialize (Hflush s eq_refl eq_refl Hconf). unfold onExhausted.
      destruct (flushUpdates JSON_parse now (ui a, s)) as [u1 s1].
      simpl in Hflush. destruct (streamingEntry s1); simpl; [|done].
      rewrite list_lookup_fmap, Hflush. simpl.
      unfold ChatEntry.streaming in *. simpl. by rewrite Hidle.
    + unfold onChunk. simpl pushed in Hflush.
      destruct (Chunk.type chunk) eqn:Hty.
      * rewrite app_nil_r in Hflush.
        destruct (truthy (Chunk.content chunk)); flush_at Hflush Hconf.
      * rewrite app_nil_r in Hflush.
        destruct (truthy (Chunk.content chunk)); [|flush_at Hflush Hconf].
        pose proof (flushUpdates_stamp JSON_parse now (ui a) s Ht Hconf)
          as Hstamp.
        specialize (Hflush s eq_refl eq_refl Hconf).
        destruct (flushUpdates JSON_parse now (ui a, s)) as [u1 s1].
        simpl in Hflush, Hstamp.
        rewrite flushUpdates_refused by (left; simpl; lia).
        simpl. by apply lookup_app_l_Some.
      * rewrite app_nil_r in Hflush.
        destruct (Chunk.tokenCount chunk); flush_at Hflush Hconf.
      * rewrite app_nil_r in Hflush.
        destruct (Chunk.toolCalls chunk); flush_at Hflush Hconf.
      * destruct (Chunk.toolCall chunk), (Chunk.toolResult chunk);
          rewrite ?app_nil_r in Hflush; flush_at Hflush Hconf.
      * rewrite app_nil_r in Hflush.
        rewrite flushUpdates_twice by done. flush_at Hflush Hconf.
  - intros chunk -> Hty.
    assert (Hlen : length (chatHistory
                             (ui (step JSON_parse a (ChunkArrived now chunk))))
                   = (length (chatHistory (ui a)) + appended s)%nat).
    { unfold step. rewrite Hs. unfold onChunk. rewrite Hty.
      destruct (Chunk.toolCall chunk), (Chunk.toolResult chunk);
        match goal with
        | |- context [flushUpdates ?p ?n (?u, ?x)] =>
            pose proof (flushUpdates_effective p n u x Ht Hconf) as E;
            apply (f_equal length) in E; rewrite updater_length in E;
            destruct (flushUpdates p n (u, x)); exact E
        end. }
    split; [done|]. intros Hacc Hcalls. rewrite Hlen. unfold appended.
    rewrite Hacc, Hcalls. simpl. lia.
Qed.


(** X22: take a stored tool-call entry and a tool result with the same call
    id, buffered already or brought by the arriving chunk.  The flush that
    commits it (at a chunk or at the end of the stream, passing the throttle
    and the guard) puts at the same index an entry of type tool_result that
    holds the first buffered result with that call id, the display text of
    that result, and the call and the time stamp of the tool-call entry.  At
    the arrival of a tool_result chunk the log grows only by what the flush
    appends for buffered text and announced tool calls: nothing is appended
    for the result, and the length is unchanged when nothing else was
    buffered. *)
Theorem tool_result_converts_in_place
        JSON_parse a s now ev i entry tc toolCall toolResult :
  reachable JSON_parse a ->
  session a = Some s ->
  capturedConfirmationOptions s = None ->
  250 <= now - lastUpdateTime s ->
  (ev = Exhausted now \/ exists chunk, ev = ChunkArrived now chunk) ->
  chatHistory (ui a) !! i = Some entry ->
  ChatEntry.type entry = ty_tool_call ->
  ChatEntry.toolCall entry = Some tc ->
  (toolCall, toolResult) ∈ pendingToolResults s ++ pushed ev ->
  GrokToolCall.id tc = GrokToolCall.id toolCall ->
  (exists r e',
      find (matches entry) (pendingToolResults s ++ pushed ev) = Some r /\
      GrokToolCall.id r.1 = GrokToolCall.id tc /\
      chatHistory (ui (step JSON_parse a ev)) !! i = Some e' /\
      ChatEntry.type e' = ty_tool_result /\
      ChatEntry.content e' = resultContent r.2 /\
      ChatEntry.toolResult e' = Some r.2 /\
      ChatEntry.toolCall e' = Some tc /\
      ChatEntry.timestamp e' = ChatEntry.timestamp entry) /\
  (forall chunk,
      ev = ChunkArrived now chunk -> Chunk.type chunk = ch_tool_result ->
      length (chatHistory (ui (step JSON_parse a ev)))
      = (length (chatHistory (ui a)) + appended s)%nat /\
      (accumulatedContent s = [] -> pendingToolCalls s = None ->
       length (chatHistory (ui (step JSON_parse a ev)))
       = length (chatHistory (ui a)))).
Proof.
  intros Hreach Hs Hconf Ht Hev Hi Hety Hetc Hin Hid.
  destruct (flush_converts_matching_entry
              JSON_parse a s now ev i entry tc toolCall toolResult
              Hreach Hs Hconf Ht Hev Hi Hety Hetc Hin Hid)
    as [(r & Hfind & Hat) Hlen].
  split; [|exact Hlen].
  exists r, (ChatEntry.as_result (resultContent r.2) r.2 entry).
  split_and!; try done.
  apply find_holds in Hfind. unfold matches in Hfind.
  rewrite Hety, Hetc in Hfind. unfold jsstring_eqb in Hfind.
  by apply bool_decide_eq_true in Hfind.
Qed.

Lemma tool_result_converts_in_place_witness :
  let a := run Ex.parse (mount (Some (lit "list files")) 0)
               [ChunkArrived 300 Ex.toolCallsChunk] in
  let ev := ChunkArrived 600 (Ex.toolResultChunk Ex.okResult) in
  let entry := toolCallEntry Ex.parse 300 Ex.lsCall in
  chatHistory (ui a) !! 1%nat = Some entry /\
  (exists r e',
      find (matches entry) [(Ex.lsCall, Ex.okResult)] = Some r /\
      GrokToolCall.id r.1 = GrokToolCall.id Ex.lsCall /\
      chatHistory (ui (step Ex.parse a ev)) !! 1%nat = Some e' /\
      ChatEntry.type e' = ty_tool_result /\
      ChatEntry.content e' = resultContent r.2 /\
      ChatEntry.toolResult e' = Some r.2 /\
      ChatEntry.toolCall e' = Some Ex.lsCall /\
      ChatEntry.timestamp e' = ChatEntry.timestamp entry) /\
  length (chatHistory (ui (step Ex.parse a ev))) = length (chatHistory (ui a)).
Proof.
  intros a ev entry.
  pose proof (tool_result_converts_in_place
                Ex.parse a (mkSession None [] 0 None [] 300 None) 600 ev
                1%nat entry Ex.lsCall Ex.lsCall Ex.okResult)
    as H.
  destruct H as (Hconv & Hlen); try reflexivity.
  - exists (Some (lit "list files")), 0, [ChunkArrived 300 Ex.toolCallsChunk].
    reflexivity.
  - simpl. lia.
  - right. by eexists.
  - simpl. apply list_elem_of_singleton. reflexivity.
  - split_and!; [reflexivity|exact Hconv|].
    apply (Hlen _ eq_refl eq_refl); reflexivity.
Defined.
